(** * Book Tracker API: the request handlers of [main.py] over an abstract store

    The gateway is four route handlers ([create_book], [get_books],
    [delete_book], [update_book]) that validate a request, talk to the
    remote table [books] through a fluent query builder and raise
    [HTTPException] on failure.  The handlers are embedded as programs of a
    small exception-and-store-call monad; they can be run against any store,
    and in particular against the in-memory table defined below. *)

From stdpp Require Import base strings gmap list sorting pretty.

Local Open Scope string_scope.
Local Open Scope Z_scope.

(** ** Exceptions and status codes *)

(** Python's exception classes as far as the handlers tell them apart:
    [HTTPException] (which is a subclass of [Exception]) and every other
    [Exception], carrying its message. *)
Inductive exn : Type :=
| HTTPException (status_code : Z) (detail : string)
| Exception (msg : string).

Definition HTTP_400_BAD_REQUEST : Z := 400.
Definition HTTP_404_NOT_FOUND : Z := 404.
Definition HTTP_500_INTERNAL_SERVER_ERROR : Z := 500.

(** [isinstance(e, HTTPException)]. *)
Definition is_HTTPException (e : exn) : bool :=
  match e with HTTPException _ _ => true | Exception _ => false end.

(** One rendering of [str(e)]: the message of a plain exception, and the
    "code: detail" form of Starlette's [HTTPException.__str__].  The handlers
    take the rendering as a parameter; this one serves the concrete runs. *)
Definition starlette_str (e : exn) : string :=
  match e with
  | HTTPException c d => pretty c +:+ ": " +:+ d
  | Exception m => m
  end.

(** ** Request and response models *)

Module BookCreate.
Record t : Type := Build { title : string; author : string; status : string }.
End BookCreate.

Module BookUpdate.
Record t : Type :=
  Build { title : option string; author : option string; status : option string }.
End BookUpdate.

(** A row of the table [books], which is also the response model.
    [created_at] is kept as an instant (a number), so that the store can
    order by it. *)
Module BookResponse.
Record t : Type := Build {
  id : string;
  title : string;
  author : string;
  status : string;
  created_at : Z;
  user_id : string
}.
End BookResponse.

Abbreviation Row := BookResponse.t.

(** ** The query builder of the store client *)

Inductive Verb : Type :=
| VSelect (columns : string)
| VInsert (values : gmap string string)
| VUpdate (values : gmap string string)
| VDelete.

Record Query : Type := {
q_table : string;
q_verb : Verb;
q_filters : list (string * string);
q_order : option (string * bool)
}.

Module Supabase.
Definition table (name : string) : string := name.

Definition select (columns : string) (t : string) : Query :=
  {| q_table := t; q_verb := VSelect columns; q_filters := []; q_order := None |}.
Definition insert (values : gmap string string) (t : string) : Query :=
  {| q_table := t; q_verb := VInsert values; q_filters := []; q_order := None |}.
Definition update (values : gmap string string) (t : string) : Query :=
  {| q_table := t; q_verb := VUpdate values; q_filters := []; q_order := None |}.
Definition delete (t : string) : Query :=
  {| q_table := t; q_verb := VDelete; q_filters := []; q_order := None |}.

(** [.eq(column, value)] adds an equality filter; filters are conjoined. *)
Definition eq (column value : string) (q : Query) : Query :=
  {| q_table := q_table q; q_verb := q_verb q;
     q_filters := q_filters q ++ [(column, value)]; q_order := q_order q |}.

(** [.order(column, desc=...)]. *)
Definition order (column : string) (desc : bool) (q : Query) : Query :=
  {| q_table := q_table q; q_verb := q_verb q;
     q_filters := q_filters q; q_order := Some (column, desc) |}.
End Supabase.

(** A query that writes to the table. *)
Definition is_mutation (q : Query) : bool :=
  match q_verb q with VSelect _ => false | _ => true end.

(** What [.execute()] comes back with: a result whose [.data] is a list of
    rows, or an exception raised by the client. *)
Inductive Response : Type :=
| Data (data : list Row)
| Failure (msg : string).

(** ** Handler programs *)

(** A handler either returns, raises, or executes a query and goes on with
    the store's answer. *)
Inductive Prog (A : Type) : Type :=
| Ret (a : A)
| Raise (e : exn)
| Exec (q : Query) (k : Response → Prog A).

Arguments Ret {A} a.
Arguments Raise {A} e.
Arguments Exec {A} q k.

Fixpoint bind {A B : Type} (p : Prog A) (f : A → Prog B) : Prog B :=
  match p with
  | Ret a => f a
  | Raise e => Raise e
  | Exec q k => Exec q (λ r, bind (k r) f)
  end.

(** [try: body  except Exception as e: handler e].  Every exception of the
    body, [HTTPException] included, reaches the handler; a handler that
    wants to let one through raises it again. *)
Fixpoint try_except {A : Type} (body : Prog A) (handler : exn → Prog A) : Prog A :=
  match body with
  | Ret a => Ret a
  | Raise e => handler e
  | Exec q k => Exec q (λ r, try_except (k r) handler)
  end.

(** [query.execute()], giving [result.data]. *)
Definition execute (q : Query) : Prog (list Row) :=
  Exec q (λ r, match r with
               | Data d => Ret d
               | Failure m => Raise (Exception m)
               end).

#[global] Instance Prog_ret : MRet Prog := @Ret.
#[global] Instance Prog_bind : MBind Prog := λ A B f p, bind p f.

Notation "q '|>' f" := (f q) (at level 45, left associativity, only parsing).

(** [data[0]]. *)
Definition first_row (data : list Row) : Prog Row :=
  match data with
  | r :: _ => Ret r
  | [] => Raise (Exception "list index out of range")
  end.

(** Truth value of a list, of a dict and of an optional string. *)
Definition truthy_list {A : Type} (l : list A) : bool :=
  match l with [] => false | _ :: _ => true end.
Definition truthy_dict (d : gmap string string) : bool :=
  bool_decide (d ≠ ∅).
Definition truthy_opt_str (o : option string) : bool :=
  match o with
  | None => false
  | Some s => bool_decide (s ≠ "")
  end.

(** [d[key] = value] when the optional [value] is not [None]. *)
Definition set_if_some (key : string) (value : option string)
    (d : gmap string string) : gmap string string :=
  match value with
  | Some v => <[key := v]> d
  | None => d
  end.

Definition valid_statuses : list string := ["reading"; "completed"; "wishlist"].

Definition status_in_valid (s : string) : bool := bool_decide (s ∈ valid_statuses).

Section Handlers.
(** [str(e)] as the running framework renders it. *)
Variable str : exn → string.

(** [except Exception as e: raise HTTPException(500, detail=str(e))] *)
Definition to_500 {A : Type} (e : exn) : Prog A :=
  Raise (HTTPException HTTP_500_INTERNAL_SERVER_ERROR (str e)).

(** [except HTTPException: raise] followed by the clause above. *)
Definition reraise_http_else_500 {A : Type} (e : exn) : Prog A :=
  if is_HTTPException e then Raise e else to_500 e.

(** [POST /books].  The status check stands before the [try]; the insert
    and the check of its result stand inside it. *)
Definition create_book (book : BookCreate.t) (user_id : string) : Prog Row :=
  if negb (status_in_valid (BookCreate.status book)) then
    Raise (HTTPException HTTP_400_BAD_REQUEST
             ("Status must be one of: " +:+ String.concat ", " valid_statuses))
  else
    try_except
      (data ← execute (Supabase.table "books" |> Supabase.insert
                 (<["user_id" := user_id]>
                    (<["status" := BookCreate.status book]>
                       (<["author" := BookCreate.author book]>
                          (<["title" := BookCreate.title book]> ∅)))));
       if negb (truthy_list data) then
         Raise (HTTPException HTTP_500_INTERNAL_SERVER_ERROR "Failed to create book")
       else first_row data)
      to_500.

(** [GET /books].  The whole body, filter check included, stands inside the
    [try], whose only clause is [except Exception]. *)
Definition get_books (status_filter : option string) (user_id : string)
    : Prog (list Row) :=
  try_except
    (let query := Supabase.table "books" |> Supabase.select "*" |> Supabase.eq "user_id" user_id in
     query ←
       (match status_filter with
        | Some f =>
            if truthy_opt_str status_filter then
              if negb (status_in_valid f) then
                Raise (HTTPException HTTP_400_BAD_REQUEST
                         ("Status filter must be one of: "
                          +:+ String.concat ", " valid_statuses))
              else Ret (query |> Supabase.eq "status" f)
            else Ret query
        | None => Ret query
        end);
     execute (query |> Supabase.order "created_at" true))
    to_500.

(** [DELETE /books/{book_id}].  The result of the delete is not looked at. *)
Definition delete_book (book_id user_id : string) : Prog string :=
  try_except
    (existing_book ← execute (Supabase.table "books" |> Supabase.select "*"
                                |> Supabase.eq "id" book_id |> Supabase.eq "user_id" user_id);
     if negb (truthy_list existing_book) then
       Raise (HTTPException HTTP_404_NOT_FOUND "Book not found")
     else
       _ ← execute (Supabase.table "books" |> Supabase.delete
                      |> Supabase.eq "id" book_id |> Supabase.eq "user_id" user_id);
       Ret "Book deleted successfully")
    reraise_http_else_500.

(** [PATCH /books/{book_id}].  Existence check, then the building of
    [update_data] with the status check, then the update. *)
Definition update_book (book_id : string) (book_update : BookUpdate.t)
    (user_id : string) : Prog Row :=
  try_except
    (existing_book ← execute (Supabase.table "books" |> Supabase.select "*"
                                |> Supabase.eq "id" book_id |> Supabase.eq "user_id" user_id);
     if negb (truthy_list existing_book) then
       Raise (HTTPException HTTP_404_NOT_FOUND "Book not found")
     else
       let update_data : gmap string string := ∅ in
       let update_data := set_if_some "title" (BookUpdate.title book_update) update_data in
       let update_data := set_if_some "author" (BookUpdate.author book_update) update_data in
       update_data ←
         (match BookUpdate.status book_update with
          | Some s =>
              if negb (status_in_valid s) then
                Raise (HTTPException HTTP_400_BAD_REQUEST
                         ("Status must be one of: " +:+ String.concat ", " valid_statuses))
              else Ret (<["status" := s]> update_data)
          | None => Ret update_data
          end);
       if negb (truthy_dict update_data) then
         Raise (HTTPException HTTP_400_BAD_REQUEST "No fields to update")
       else
         data ← execute (Supabase.table "books" |> Supabase.update update_data
                           |> Supabase.eq "id" book_id |> Supabase.eq "user_id" user_id);
         if negb (truthy_list data) then
           Raise (HTTPException HTTP_500_INTERNAL_SERVER_ERROR "Failed to update book")
         else first_row data)
    reraise_http_else_500.
End Handlers.

(** ** Running a handler against a store *)

(** How a request ends: the handler returned a value, or an exception left it. *)
Inductive Outcome (A : Type) : Type :=
| Returned (a : A)
| Raised (e : exn).

Arguments Returned {A} a.
Arguments Raised {A} e.

(** The status code the caller receives: 200 for a returned value, the code of
    an [HTTPException], and 500 for any other exception that escapes. *)
Definition response_status {A : Type} (o : Outcome A) : Z :=
  match o with
  | Returned _ => 200
  | Raised (HTTPException c _) => c
  | Raised (Exception _) => 500
  end.

Definition is_client_error (c : Z) : bool := ((400 <=? c) && (c <? 500))%Z.
Definition is_server_error (c : Z) : bool := ((500 <=? c) && (c <? 600))%Z.

(** The record of one run: the store calls made, in order, each with the
    store's answer; the store afterwards; and the outcome. *)
Record Run (W A : Type) : Type := {
  calls : list (Query * Response);
  final : W;
  outcome : Outcome A
}.

Arguments calls {W A} r.
Arguments final {W A} r.
Arguments outcome {W A} r.

Section Run.
Context {W : Type} (exec : Query → W → W * Response).

Fixpoint run {A : Type} (p : Prog A) (w : W) : Run W A :=
  match p with
  | Ret a => {| calls := []; final := w; outcome := Returned a |}
  | Raise e => {| calls := []; final := w; outcome := Raised e |}
  | Exec q k =>
      let wr := exec q w in
      let rest := run (k wr.2) wr.1 in
      {| calls := (q, wr.2) :: calls rest; final := final rest; outcome := outcome rest |}
  end.
End Run.

(** The queries a program can issue, whatever the store answers. *)
Inductive emits {A : Type} : Prog A → Query → Prop :=
| emits_now q k : emits (Exec q k) q
| emits_later q k r q' : emits (k r) q' → emits (Exec q k) q'.

(** ** The table [books] in memory *)

(** Modelled from the spec: the external store of section 6.3 is a remote
    service and not part of the repository.  It is modelled as one table that
    answers insert, select, update and delete with equality filters, assigns
    [id] and [created_at] itself on insert, and checks nothing about
    [status].  [next_id] numbers the rows ever inserted and [now] is the
    store's clock. *)
Record Store : Type := {
  rows : list Row;
  next_id : nat;
  now : Z
}.

(** The id the store gives to its [n]-th row. *)
Definition fresh_id (n : nat) : string := "book-" +:+ pretty n.

Definition text_columns : list string := ["id"; "title"; "author"; "status"; "user_id"].

Definition text_column (c : string) (r : Row) : option string :=
  if decide (c = "id") then Some (BookResponse.id r)
  else if decide (c = "title") then Some (BookResponse.title r)
  else if decide (c = "author") then Some (BookResponse.author r)
  else if decide (c = "status") then Some (BookResponse.status r)
  else if decide (c = "user_id") then Some (BookResponse.user_id r)
  else None.

(** A row passes the filters when every filtered column holds the value. *)
Definition matches (filters : list (string * string)) (r : Row) : Prop :=
  Forall (λ f, text_column f.1 r = Some f.2) filters.

#[global] Instance matches_dec filters r : Decision (matches filters r).
Proof. unfold matches. apply _. Defined.

(** [ORDER BY created_at], descending or ascending. *)
Definition newest_first (a b : Row) : Prop :=
  BookResponse.created_at b ≤ BookResponse.created_at a.
Definition oldest_first (a b : Row) : Prop :=
  BookResponse.created_at a ≤ BookResponse.created_at b.

#[global] Instance newest_first_dec a b : Decision (newest_first a b).
Proof. unfold newest_first. apply _. Defined.
#[global] Instance oldest_first_dec a b : Decision (oldest_first a b).
Proof. unfold oldest_first. apply _. Defined.

Definition order_rows (o : option (string * bool)) (l : list Row) : option (list Row) :=
  match o with
  | None => Some l
  | Some (c, desc) =>
      if decide (c = "created_at") then
        Some (if desc then merge_sort newest_first l else merge_sort oldest_first l)
      else None
  end.

(** The row an insert creates: the four supplied columns, a fresh id and the
    current time. *)
Definition new_row (values : gmap string string) (s : Store) : option Row :=
  if decide (dom values = list_to_set ["title"; "author"; "status"; "user_id"]) then
    t ← values !! "title";
    a ← values !! "author";
    st ← values !! "status";
    u ← values !! "user_id";
    Some {| BookResponse.id := fresh_id (next_id s);
            BookResponse.title := t;
            BookResponse.author := a;
            BookResponse.status := st;
            BookResponse.created_at := now s;
            BookResponse.user_id := u |}
  else None.

(** A row after [SET column = value] for every entry of [values]. *)
Definition patch (values : gmap string string) (r : Row) : Row :=
  {| BookResponse.id := default (BookResponse.id r) (values !! "id");
     BookResponse.title := default (BookResponse.title r) (values !! "title");
     BookResponse.author := default (BookResponse.author r) (values !! "author");
     BookResponse.status := default (BookResponse.status r) (values !! "status");
     BookResponse.created_at := BookResponse.created_at r;
     BookResponse.user_id := default (BookResponse.user_id r) (values !! "user_id") |}.

(** The store with its rows replaced; counter and clock stay. *)
Definition with_rows (l : list Row) (s : Store) : Store :=
  {| rows := l; next_id := next_id s; now := now s |}.

(** Modelled from the spec: how the store answers one query (6.3).  A query
    on another table, a filter or an update on a column the table does not
    have, an ordering by anything but [created_at] and an insert that does
    not bring exactly the four columns the gateway sends make the client
    raise.  A select returns the rows that pass the filters, ordered as
    asked; an insert appends a row and returns it; an update patches the
    rows that pass the filters and returns them; a delete removes them and
    returns them. *)
Definition exec_mem (q : Query) (s : Store) : Store * Response :=
  let fs := q_filters q in
  if negb (bool_decide (q_table q = "books")) then
    (s, Failure "relation does not exist")
  else if negb (bool_decide (Forall (λ f, f.1 ∈ text_columns) fs)) then
    (s, Failure "column does not exist")
  else
    match q_verb q with
    | VSelect _ =>
        match order_rows (q_order q) (filter (matches fs) (rows s)) with
        | Some l => (s, Data l)
        | None => (s, Failure "cannot order by this column")
        end
    | VInsert values =>
        match new_row values s with
        | Some r =>
            ({| rows := rows s ++ [r]; next_id := S (next_id s); now := now s |},
             Data [r])
        | None => (s, Failure "insert does not fit the table")
        end
    | VUpdate values =>
        if bool_decide (dom values ⊆ list_to_set text_columns) then
          (with_rows ((λ r, if decide (matches fs r) then patch values r else r) <$> rows s) s,
           Data (patch values <$> filter (matches fs) (rows s)))
        else (s, Failure "column does not exist")
    | VDelete =>
        (with_rows (filter (λ r, ¬ matches fs r) (rows s)) s,
         Data (filter (matches fs) (rows s)))
    end.

(** Time passing at the store. *)
Definition tick (d : Z) (s : Store) : Store :=
  {| rows := rows s; next_id := next_id s; now := now s + Z.max 0 d |}.

(** The table before any request. *)
Definition empty_store : Store := {| rows := []; next_id := 0; now := 0 |}.

(** A store shared with other clients: before it serves the handler's [k]-th
    call it serves the [k]-th batch of the schedule, the queries that other
    requests got in first. *)
Definition Shared : Type := Store * list (list Query).

Definition exec_shared (q : Query) (w : Shared) : Shared * Response :=
  let s := foldl (λ s q', (exec_mem q' s).1) w.1 (hd [] w.2) in
  let sr := exec_mem q s in
  ((sr.1, tl w.2), sr.2).

(** A small table for the concrete runs: two books of alice, one of bob. *)
Definition sample_store : Store :=
  {| rows := [ {| BookResponse.id := "book-0"; BookResponse.title := "Dune";
                  BookResponse.author := "Herbert"; BookResponse.status := "reading";
                  BookResponse.created_at := 10; BookResponse.user_id := "alice" |};
               {| BookResponse.id := "book-1"; BookResponse.title := "Emma";
                  BookResponse.author := "Austen"; BookResponse.status := "completed";
                  BookResponse.created_at := 20; BookResponse.user_id := "alice" |};
               {| BookResponse.id := "book-2"; BookResponse.title := "Ulysses";
                  BookResponse.author := "Joyce"; BookResponse.status := "wishlist";
                  BookResponse.created_at := 30; BookResponse.user_id := "bob" |} ];
     next_id := 3; now := 40 |}.

(** ** The routes *)

(** The four book routes of the application, as one request type; the path
    and body parameters are the constructor arguments and the authenticated
    user is passed alongside. *)
Inductive Request : Type :=
| CreateBook (book : BookCreate.t)
| GetBooks (status_filter : option string)
| DeleteBook (book_id : string)
| UpdateBook (book_id : string) (book_update : BookUpdate.t).

(** The response bodies: one book, a list of books, or a message object. *)
Inductive Reply : Type :=
| Book (r : Row)
| Books (l : list Row)
| Message (m : string).

Definition handle (str : exn → string) (req : Request) (user_id : string) : Prog Reply :=
  match req with
  | CreateBook book => r ← create_book str book user_id; Ret (Book r)
  | GetBooks status_filter => l ← get_books str status_filter user_id; Ret (Books l)
  | DeleteBook book_id => m ← delete_book str book_id user_id; Ret (Message m)
  | UpdateBook book_id book_update =>
      r ← update_book str book_id book_update user_id; Ret (Book r)
  end.

(** ** Authentication *)

Definition HTTP_401_UNAUTHORIZED : Z := 401.

(** What [jwt.decode] comes back with: the payload of a token it accepts
    (the claims, as text), an exception of the class [jwt.InvalidTokenError]
    (bad signature, expired, wrong audience, malformed), or an exception of
    another class. *)
Inductive Decoded : Type :=
| Payload (claims : gmap string string)
| InvalidTokenError (msg : string)
| OtherError (msg : string).

Definition invalid_token : exn := HTTPException HTTP_401_UNAUTHORIZED "Invalid token".

Section Authentication.
(** [jwt.decode(token, key, algorithms=..., audience=...)] of the JWT library
    and the configured signing secret. *)
Variable jwt_decode : string → string → list string → string → Decoded.
Variable SUPABASE_JWT_SECRET : string.

(** The dependency every book route declares.  The 401 raised for a missing
    or empty [sub] is an [HTTPException], which the [except
    jwt.InvalidTokenError] clause does not catch; an exception of another
    class is not caught either. *)
Definition get_current_user (token : string) : Prog string :=
  match jwt_decode token SUPABASE_JWT_SECRET ["HS256"] "authenticated" with
  | Payload payload =>
      let user_id := payload !! "sub" in
      if negb (truthy_opt_str user_id) then
        Raise (HTTPException HTTP_401_UNAUTHORIZED "Invalid token")
      else Ret (default "" user_id)
  | InvalidTokenError _ =>
      Raise (HTTPException HTTP_401_UNAUTHORIZED "Invalid token")
  | OtherError m => Raise (Exception m)
  end.

(** A book route as the framework serves it: the dependency is resolved
    first and the handler gets what it returned as [user_id]. *)
Definition endpoint (str : exn → string) (token : string) (req : Request) : Prog Reply :=
  user_id ← get_current_user token; handle str req user_id.
End Authentication.

(** ** Vocabulary of the statements *)

(** *** The queries the handlers send *)

(** The existence check of update and delete:
    select * from books where id = book_id and user_id = user_id. *)
Definition owner_scoped_lookup (book_id user_id : string) : Query :=
  Supabase.table "books" |> Supabase.select "*"
    |> Supabase.eq "id" book_id |> Supabase.eq "user_id" user_id.

(** The insert of [create_book]. *)
Definition insert_query (book : BookCreate.t) (user_id : string) : Query :=
  Supabase.table "books" |> Supabase.insert
    (<["user_id" := user_id]>
       (<["status" := BookCreate.status book]>
          (<["author" := BookCreate.author book]>
             (<["title" := BookCreate.title book]> ∅)))).

(** The select of [get_books]: the owner filter, the status filter when the
    handler applies one, newest first. *)
Definition list_query (status_filter : option string) (user_id : string) : Query :=
  let query := Supabase.table "books" |> Supabase.select "*" |> Supabase.eq "user_id" user_id in
  (if truthy_opt_str status_filter
   then query |> Supabase.eq "status" (default "" status_filter)
   else query) |> Supabase.order "created_at" true.

(** The delete of [delete_book]. *)
Definition delete_query (book_id user_id : string) : Query :=
  Supabase.table "books" |> Supabase.delete
    |> Supabase.eq "id" book_id |> Supabase.eq "user_id" user_id.

(** The dict [update_data] that [update_book] has built when it gets to the
    update, and the update it sends. *)
Definition update_data_of (book_update : BookUpdate.t) : gmap string string :=
  set_if_some "status" (BookUpdate.status book_update)
    (set_if_some "author" (BookUpdate.author book_update)
       (set_if_some "title" (BookUpdate.title book_update) ∅)).

Definition update_query (book_id : string) (book_update : BookUpdate.t)
    (user_id : string) : Query :=
  Supabase.table "books" |> Supabase.update (update_data_of book_update)
    |> Supabase.eq "id" book_id |> Supabase.eq "user_id" user_id.

(** *** Validation *)

(** The status of an update passes: it is absent or in [valid_statuses]. *)
Definition status_ok (book_update : BookUpdate.t) : bool :=
  match BookUpdate.status book_update with
  | Some st => status_in_valid st
  | None => true
  end.

(** The filter of a list request passes: it is absent, empty or in
    [valid_statuses]. *)
Definition filter_ok (status_filter : option string) : bool :=
  match status_filter with
  | Some f => negb (truthy_opt_str status_filter) || status_in_valid f
  | None => true
  end.

(** The exceptions the handlers raise by name. *)
Definition bad_status : exn :=
  HTTPException HTTP_400_BAD_REQUEST
    ("Status must be one of: " +:+ String.concat ", " valid_statuses).
Definition bad_filter : exn :=
  HTTPException HTTP_400_BAD_REQUEST
    ("Status filter must be one of: " +:+ String.concat ", " valid_statuses).
Definition nothing_to_update : exn :=
  HTTPException HTTP_400_BAD_REQUEST "No fields to update".
Definition not_found : exn := HTTPException HTTP_404_NOT_FOUND "Book not found".

(** A request that must fail validation: a status outside the enumeration
    (create, update), a non-empty filter outside it (list), or an update
    that supplies no field. *)
Definition fails_validation (req : Request) : Prop :=
  match req with
  | CreateBook book => BookCreate.status book ∉ valid_statuses
  | GetBooks status_filter =>
      ∃ f, status_filter = Some f ∧ f ≠ "" ∧ f ∉ valid_statuses
  | DeleteBook _ => False
  | UpdateBook _ book_update =>
      (∃ st, BookUpdate.status book_update = Some st ∧ st ∉ valid_statuses)
      ∨ book_update = BookUpdate.Build None None None
  end.

(** *** Rows *)

#[global] Instance Row_eq_dec : EqDecision Row.
Proof. solve_decision. Defined.

(** The row that the table creates for a create request. *)
Definition created_row (book : BookCreate.t) (user_id : string) (s : Store) : Row :=
  {| BookResponse.id := fresh_id (next_id s);
     BookResponse.title := BookCreate.title book;
     BookResponse.author := BookCreate.author book;
     BookResponse.status := BookCreate.status book;
     BookResponse.created_at := now s;
     BookResponse.user_id := user_id |}.

(** A row after a partial update: each of title, author and status takes
    the value the request supplies and keeps its own when the request has
    [None]; id, creation time and owner stay. *)
Definition updated_row (book_update : BookUpdate.t) (r : Row) : Row :=
  {| BookResponse.id := BookResponse.id r;
     BookResponse.title := default (BookResponse.title r) (BookUpdate.title book_update);
     BookResponse.author := default (BookResponse.author r) (BookUpdate.author book_update);
     BookResponse.status := default (BookResponse.status r) (BookUpdate.status book_update);
     BookResponse.created_at := BookResponse.created_at r;
     BookResponse.user_id := BookResponse.user_id r |}.

(** The row has this id and this owner. *)
Definition owned_by (book_id user_id : string) (r : Row) : Prop :=
  BookResponse.id r = book_id ∧ BookResponse.user_id r = user_id.

#[global] Instance owned_by_dec i u r : Decision (owned_by i u r).
Proof. unfold owned_by. apply _. Defined.

(** The row belongs in the list of this user, under this status filter. *)
Definition wanted (status_filter : option string) (user_id : string) (r : Row) : Prop :=
  BookResponse.user_id r = user_id
  ∧ match status_filter with
    | Some f => BookResponse.status r = f
    | None => True
    end.

#[global] Instance wanted_dec f u r : Decision (wanted f u r).
Proof. unfold wanted. destruct f; apply _. Defined.

Definition valid_status (r : Row) : Prop := BookResponse.status r ∈ valid_statuses.

(** *** Tables *)

(** No two rows of the table have the same id. *)
Definition unique_ids (s : Store) : Prop := NoDup (BookResponse.id <$> rows s).

(** Every id in the table was issued by the store's counter. *)
Definition ids_issued (s : Store) : Prop :=
  Forall (λ r, ∃ k, (k < next_id s)%nat ∧ BookResponse.id r = fresh_id k) (rows s).

(** The run of an update or delete whose existence check finds nothing: one
    lookup answered with no row, the store as it was, and the not-found error. *)
Definition rejected_after_lookup {A : Type} (book_id user_id : string) (s : Store)
    : Run Store A :=
  {| calls := [(owner_scoped_lookup book_id user_id, Data [])];
     final := s;
     outcome := Raised not_found |}.

(** The effect on the table of one query that a handler can issue. *)
Inductive store_step : Store → Store → Prop :=
| step_read s : store_step s s
| step_insert book u s :
    BookCreate.status book ∈ valid_statuses →
    store_step s {| rows := rows s ++ [created_row book u s];
                    next_id := S (next_id s); now := now s |}
| step_update i upd u s :
    status_ok upd = true →
    store_step s
      (with_rows ((λ r, if decide (owned_by i u r) then updated_row upd r else r)
                    <$> rows s) s)
| step_delete i u s :
    store_step s (with_rows (filter (λ r, ¬ owned_by i u r) (rows s)) s).

(** The tables that can arise: from the empty table, by the passing of
    time, and by the store serving any query that some handler can issue for
    some request.  Calls of concurrent requests may interleave freely. *)
Inductive reachable (str : exn → string) : Store → Prop :=
| reachable_empty : reachable str empty_store
| reachable_tick d s : reachable str s → reachable str (tick d s)
| reachable_call req user_id q s :
    reachable str s → emits (handle str req user_id) q →
    reachable str (exec_mem q s).1.

(** *** Requests and stores of the further properties *)

(** The status codes with which each route can fail. *)
Definition error_codes (req : Request) : list Z :=
  match req with
  | CreateBook _ => [400; 500]
  | GetBooks _ => [500]
  | DeleteBook _ => [404; 500]
  | UpdateBook _ _ => [400; 404; 500]
  end.

(** The request gets past the checks that stand before its first store call. *)
Definition reaches_store (req : Request) : Prop :=
  match req with
  | CreateBook book => BookCreate.status book ∈ valid_statuses
  | GetBooks status_filter => filter_ok status_filter = true
  | DeleteBook _ => True
  | UpdateBook _ _ => True
  end.

(** The first store call of a route whose request [reaches_store]. *)
Definition first_query (req : Request) (user_id : string) : Query :=
  match req with
  | CreateBook book => insert_query book user_id
  | GetBooks status_filter => list_query status_filter user_id
  | DeleteBook book_id => owner_scoped_lookup book_id user_id
  | UpdateBook book_id _ => owner_scoped_lookup book_id user_id
  end.

(** A store that is down: every call raises with the same message. *)
Definition exec_down (m : string) (q : Query) (w : unit) : unit * Response :=
  (w, Failure m).

(** A decoder for the concrete runs: it accepts two tokens. *)
Definition sample_decode (token key : string) (algorithms : list string)
    (audience : string) : Decoded :=
  if decide (token = "alice-token") then Payload {["sub" := "alice"; "aud" := "authenticated"]}
  else if decide (token = "no-sub-token") then Payload {["aud" := "authenticated"]}
  else InvalidTokenError "Signature verification failed".

(** * Properties *)

(** ** Programs and runs *)

Section RunFacts.
Context {W : Type} (exec : Query → W → W * Response).

Lemma run_bind_ret {A B : Type} (f : A → B) (p : Prog A) (w : W) :
  calls (run exec (x ← p; Ret (f x)) w) = calls (run exec p w)
  ∧ final (run exec (x ← p; Ret (f x)) w) = final (run exec p w)
  ∧ outcome (run exec (x ← p; Ret (f x)) w)
    = match outcome (run exec p w) with
      | Returned a => Returned (f a)
      | Raised e => Raised e
      end.
Proof.
  unfold mbind, Prog_bind. revert w.
  induction p as [a|e|q k IH]; intros w; cbn; [done..|].
  destruct (IH (exec q w).2 (exec q w).1) as (-> & -> & ->). done.
Qed.

(** Every call of a run is a query the program can issue. *)
Lemma run_calls_emitted {A : Type} (p : Prog A) (w : W) :
  Forall (λ c, emits p c.1) (calls (run exec p w)).
Proof.
  revert w. induction p as [a|e|q k IH]; intros w; cbn; [constructor..|].
  apply Forall_cons; split; [constructor|].
  eapply Forall_impl; [apply IH|]. intros c Hc. eapply emits_later, Hc.
Qed.
End RunFacts.

Lemma emits_bind_ret {A B : Type} (f : A → B) (p : Prog A) (q : Query) :
  emits (x ← p; Ret (f x)) q ↔ emits p q.
Proof.
  unfold mbind, Prog_bind. split.
  - induction p as [a|e|q0 k IH]; cbn; intros H.
    + inversion H.
    + inversion H.
    + inversion H; subst.
      * constructor.
      * eapply emits_later. eapply IH. eassumption.
  - induction 1 as [q0 k|q0 k r q' _ IH]; cbn.
    + constructor.
    + eapply emits_later. exact IH.
Qed.

(** ** What each handler does against an arbitrary store *)

Ltac unfold_handler :=
  unfold create_book, get_books, delete_book, update_book,
    mbind, Prog_bind, execute, to_500, reraise_http_else_500.

Section HandlerRuns.
Context (str : exn → string) {W : Type} (exec : Query → W → W * Response).

Lemma run_create_book book u w :
  run exec (create_book str book u) w =
    if status_in_valid (BookCreate.status book) then
      let wr := exec (insert_query book u) w in
      {| calls := [(insert_query book u, wr.2)];
         final := wr.1;
         outcome :=
           match wr.2 with
           | Data (r :: _) => Returned r
           | Data [] =>
               Raised (HTTPException HTTP_500_INTERNAL_SERVER_ERROR
                         (str (HTTPException HTTP_500_INTERNAL_SERVER_ERROR
                                 "Failed to create book")))
           | Failure m =>
               Raised (HTTPException HTTP_500_INTERNAL_SERVER_ERROR (str (Exception m)))
           end |}
    else {| calls := []; final := w; outcome := Raised bad_status |}.
Proof.
  unfold_handler. destruct (status_in_valid _); [|done]. cbn.
  fold (insert_query book u).
  by destruct (exec (insert_query book u) w) as [w1 [[|r d]|m]].
Qed.

Lemma run_get_books f u w :
  run exec (get_books str f u) w =
    if filter_ok f then
      let wr := exec (list_query f u) w in
      {| calls := [(list_query f u, wr.2)];
         final := wr.1;
         outcome :=
           match wr.2 with
           | Data d => Returned d
           | Failure m =>
               Raised (HTTPException HTTP_500_INTERNAL_SERVER_ERROR (str (Exception m)))
           end |}
    else {| calls := []; final := w;
            outcome := Raised (HTTPException HTTP_500_INTERNAL_SERVER_ERROR
                                 (str bad_filter)) |}.
Proof.
  unfold_handler. unfold filter_ok, list_query.
  destruct f as [f|]; cbn.
  - destruct (bool_decide (f ≠ "")); cbn.
    + destruct (status_in_valid f); cbn; [|done].
      by destruct (exec _ w) as [w1 [d|m]].
    + by destruct (exec _ w) as [w1 [d|m]].
  - by destruct (exec _ w) as [w1 [d|m]].
Qed.

Lemma run_delete_book i u w :
  run exec (delete_book str i u) w =
    let wr := exec (owner_scoped_lookup i u) w in
    match wr.2 with
    | Failure m =>
        {| calls := [(owner_scoped_lookup i u, wr.2)]; final := wr.1;
           outcome := Raised (HTTPException HTTP_500_INTERNAL_SERVER_ERROR
                                (str (Exception m))) |}
    | Data [] =>
        {| calls := [(owner_scoped_lookup i u, wr.2)]; final := wr.1;
           outcome := Raised not_found |}
    | Data (_ :: _) =>
        let wr' := exec (delete_query i u) wr.1 in
        {| calls := [(owner_scoped_lookup i u, wr.2); (delete_query i u, wr'.2)];
           final := wr'.1;
           outcome :=
             match wr'.2 with
             | Data _ => Returned "Book deleted successfully"
             | Failure m =>
                 Raised (HTTPException HTTP_500_INTERNAL_SERVER_ERROR (str (Exception m)))
             end |}
    end.
Proof.
  unfold_handler. cbn. fold (owner_scoped_lookup i u).
  destruct (exec (owner_scoped_lookup i u) w) as [w1 [[|b d]|m]]; cbn; [done| |done].
  fold (delete_query i u).
  by destruct (exec (delete_query i u) w1) as [w2 [d'|m]].
Qed.

Lemma run_update_book i upd u w :
  run exec (update_book str i upd u) w =
    let wr := exec (owner_scoped_lookup i u) w in
    let stop e := {| calls := [(owner_scoped_lookup i u, wr.2)]; final := wr.1;
                     outcome := Raised e |} in
    match wr.2 with
    | Failure m => stop (HTTPException HTTP_500_INTERNAL_SERVER_ERROR (str (Exception m)))
    | Data [] => stop not_found
    | Data (_ :: _) =>
        if negb (status_ok upd) then stop bad_status
        else if negb (truthy_dict (update_data_of upd)) then stop nothing_to_update
        else
          let wr' := exec (update_query i upd u) wr.1 in
          {| calls := [(owner_scoped_lookup i u, wr.2); (update_query i upd u, wr'.2)];
             final := wr'.1;
             outcome :=
               match wr'.2 with
               | Data (r :: _) => Returned r
               | Data [] =>
                   Raised (HTTPException HTTP_500_INTERNAL_SERVER_ERROR
                             "Failed to update book")
               | Failure m =>
                   Raised (HTTPException HTTP_500_INTERNAL_SERVER_ERROR (str (Exception m)))
               end |}
    end.
Proof.
  unfold_handler. cbn. fold (owner_scoped_lookup i u).
  destruct (exec (owner_scoped_lookup i u) w) as [w1 [[|b d]|m]]; cbn; [done| |done].
  unfold status_ok, update_query, update_data_of.
  destruct upd as [t a [st|]]; cbn.
  - destruct (status_in_valid st); cbn; [|done].
    destruct (truthy_dict _); cbn; [|done].
    by destruct (exec _ w1) as [w2 [[|r d']|m]].
  - destruct (truthy_dict _); cbn; [|done].
    by destruct (exec _ w1) as [w2 [[|r d']|m]].
Qed.
End HandlerRuns.

(** ** The queries a handler can issue *)

Section Emitted.
Context (str : exn → string).

Lemma emits_create_book book u q :
  emits (create_book str book u) q →
  BookCreate.status book ∈ valid_statuses ∧ q = insert_query book u.
Proof.
  unfold_handler. unfold status_in_valid. case_bool_decide as Hst; cbn; intros H.
  - split; [done|]. inversion H as [|? ? r ? H']; subst; [done|].
    destruct r as [[|b d]|m]; cbn in H'; inversion H'.
  - inversion H.
Qed.

Lemma emits_get_books f u q :
  emits (get_books str f u) q → q = list_query f u ∧ filter_ok f = true.
Proof.
  unfold_handler. unfold list_query, filter_ok.
  destruct f as [f|]; cbn.
  - destruct (bool_decide (f ≠ "")); cbn.
    + destruct (status_in_valid f); cbn; intros H; [|inversion H].
      inversion H as [|? ? r ? H']; subst; [done|].
      destruct r as [d|m]; cbn in H'; inversion H'.
    + intros H. inversion H as [|? ? r ? H']; subst; [done|].
      destruct r as [d|m]; cbn in H'; inversion H'.
  - intros H. inversion H as [|? ? r ? H']; subst; [done|].
    destruct r as [d|m]; cbn in H'; inversion H'.
Qed.

Lemma emits_delete_book i u q :
  emits (delete_book str i u) q →
  q = owner_scoped_lookup i u ∨ q = delete_query i u.
Proof.
  unfold_handler. cbn. intros H.
  inversion H as [|? ? r ? H']; subst; [by left|].
  destruct r as [[|b d]|m]; cbn in H'; [inversion H'| |inversion H'].
  inversion H' as [|? ? r' ? H'']; subst; [by right|].
  destruct r' as [d'|m]; cbn in H''; inversion H''.
Qed.

Lemma emits_update_book i upd u q :
  emits (update_book str i upd u) q →
  q = owner_scoped_lookup i u
  ∨ (q = update_query i upd u ∧ status_ok upd = true ∧ update_data_of upd ≠ ∅).
Proof.
  unfold_handler. cbn. intros H.
  inversion H as [|? ? r ? H']; subst; [by left|]. right.
  destruct r as [[|b d]|m]; cbn in H'; [inversion H'| |inversion H'].
  unfold update_query, status_ok, update_data_of.
  destruct upd as [t a [st|]]; cbn in *.
  - destruct (status_in_valid st); cbn in H'; [|inversion H'].
    unfold truthy_dict in H'. case_bool_decide as Hne; cbn in H'; [|inversion H'].
    inversion H' as [|? ? r' ? H'']; subst; [done|].
    destruct r' as [[|r0 d']|m]; cbn in H''; inversion H''.
  - unfold truthy_dict in H'. case_bool_decide as Hne; cbn in H'; [|inversion H'].
    inversion H' as [|? ? r' ? H'']; subst; [done|].
    destruct r' as [[|r0 d']|m]; cbn in H''; inversion H''.
Qed.
End Emitted.

(** ** How the in-memory table answers the handlers' queries *)

Lemma matches_owner i u r :
  matches [("id", i); ("user_id", u)] r ↔ owned_by i u r.
Proof.
  unfold matches, owned_by. rewrite !Forall_cons, Forall_nil.
  change (text_column ("id", i).1 r) with (Some (BookResponse.id r)).
  change (text_column ("user_id", u).1 r) with (Some (BookResponse.user_id r)).
  cbn [snd]. split.
  - by intros ([= ->] & [= ->] & _).
  - by intros [-> ->].
Qed.

Lemma matches_user u r :
  matches [("user_id", u)] r ↔ BookResponse.user_id r = u.
Proof.
  unfold matches. rewrite !Forall_cons, Forall_nil.
  change (text_column ("user_id", u).1 r) with (Some (BookResponse.user_id r)).
  cbn [snd]. split.
  - by intros ([= ->] & _).
  - by intros ->.
Qed.

Lemma matches_user_status u st r :
  matches [("user_id", u); ("status", st)] r
  ↔ BookResponse.user_id r = u ∧ BookResponse.status r = st.
Proof.
  unfold matches. rewrite !Forall_cons, Forall_nil.
  change (text_column ("user_id", u).1 r) with (Some (BookResponse.user_id r)).
  change (text_column ("status", st).1 r) with (Some (BookResponse.status r)).
  cbn [snd]. split.
  - by intros ([= ->] & [= ->] & _).
  - by intros [-> ->].
Qed.

Lemma exec_mem_lookup i u s :
  exec_mem (owner_scoped_lookup i u) s = (s, Data (filter (owned_by i u) (rows s))).
Proof.
  unfold exec_mem. cbn.
  do 2 f_equal. apply list_filter_iff. intros r. apply matches_owner.
Qed.

Lemma exec_mem_list_all f u s :
  truthy_opt_str f = false →
  exec_mem (list_query f u) s
  = (s, Data (merge_sort newest_first (filter (wanted None u) (rows s)))).
Proof.
  intros Hf. unfold exec_mem, list_query. rewrite Hf. cbn.
  do 3 f_equal. apply list_filter_iff. intros r.
  rewrite matches_user. unfold wanted. tauto.
Qed.

Lemma exec_mem_list_status st u s :
  st ≠ "" →
  exec_mem (list_query (Some st) u) s
  = (s, Data (merge_sort newest_first (filter (wanted (Some st) u) (rows s)))).
Proof.
  intros Hst. unfold exec_mem, list_query, truthy_opt_str.
  rewrite (bool_decide_eq_true_2 _ Hst). cbn.
  do 3 f_equal. apply list_filter_iff. intros r.
  by rewrite matches_user_status.
Qed.

Lemma insert_values_lookup book u :
  let values := q_verb (insert_query book u) in
  ∃ m, values = VInsert m
       ∧ dom m = list_to_set ["title"; "author"; "status"; "user_id"]
       ∧ m !! "title" = Some (BookCreate.title book)
       ∧ m !! "author" = Some (BookCreate.author book)
       ∧ m !! "status" = Some (BookCreate.status book)
       ∧ m !! "user_id" = Some u.
Proof.
  eexists. split; [reflexivity|].
  split; [apply (bool_decide_unpack _); by vm_compute|].
  repeat split; by vm_compute.
Qed.

Lemma exec_mem_insert book u s :
  exec_mem (insert_query book u) s
  = ({| rows := rows s ++ [created_row book u s];
        next_id := S (next_id s); now := now s |},
     Data [created_row book u s]).
Proof.
  destruct (insert_values_lookup book u) as (m & Hm & Hdom & Ht & Ha & Hst & Hu).
  unfold exec_mem. cbv zeta in Hm. rewrite Hm.
  change (q_table (insert_query book u)) with "books".
  change (q_filters (insert_query book u)) with (@nil (string * string)).
  cbn. unfold new_row. rewrite decide_True by done.
  by rewrite Ht, Ha, Hst, Hu.
Qed.

Lemma patch_update_data upd r :
  patch (update_data_of upd) r = updated_row upd r.
Proof.
  unfold patch, updated_row, update_data_of.
  by destruct upd as [[t|] [a|] [st|]]; destruct r; vm_compute.
Qed.

Lemma update_data_columns upd :
  dom (update_data_of upd) ⊆ list_to_set text_columns.
Proof.
  apply (bool_decide_unpack _).
  by destruct upd as [[t|] [a|] [st|]]; vm_compute.
Qed.

Lemma exec_mem_update i upd u s :
  exec_mem (update_query i upd u) s
  = (with_rows ((λ r, if decide (owned_by i u r) then updated_row upd r else r)
                  <$> rows s) s,
     Data (updated_row upd <$> filter (owned_by i u) (rows s))).
Proof.
  unfold exec_mem, update_query. cbn.
  rewrite (bool_decide_eq_true_2 _ (update_data_columns upd)).
  f_equal.
  - f_equal. apply list_fmap_ext. intros _ r _.
    rewrite (decide_ext _ (owned_by i u r) _ _ (matches_owner i u r)).
    case_decide; [apply patch_update_data|done].
  - f_equal. rewrite (list_filter_iff _ (owned_by i u)) by (intros; apply matches_owner).
    apply list_fmap_ext. intros _ r _. apply patch_update_data.
Qed.

Lemma exec_mem_delete i u s :
  exec_mem (delete_query i u) s
  = (with_rows (filter (λ r, ¬ owned_by i u r) (rows s)) s,
     Data (filter (owned_by i u) (rows s))).
Proof.
  unfold exec_mem, delete_query. cbn. f_equal.
  - f_equal. apply list_filter_iff. intros r. by rewrite matches_owner.
  - f_equal. apply list_filter_iff. intros r. apply matches_owner.
Qed.

(** ** Ownership: another user's book looks like no book *)

Lemma filter_none {A : Type} (P : A → Prop) `{∀ x, Decision (P x)} (l : list A) :
  (∀ x, x ∈ l → ¬ P x) → filter P l = [].
Proof.
  induction l as [|x l IH]; intros Hl; [done|].
  rewrite filter_cons, decide_False by (apply Hl; left).
  apply IH. intros y Hy. apply Hl. by right.
Qed.

Lemma unique_ids_same_row s r r' :
  unique_ids s → r ∈ rows s → r' ∈ rows s →
  BookResponse.id r = BookResponse.id r' → r = r'.
Proof.
  unfold unique_ids. induction (rows s) as [|x l IH]; intros Hnd Hr Hr' Hid.
  - by apply elem_of_nil in Hr.
  - rewrite fmap_cons in Hnd. apply NoDup_cons in Hnd as [Hx Hnd].
    apply elem_of_cons in Hr as [->|Hr]; apply elem_of_cons in Hr' as [->|Hr'].
    + done.
    + exfalso. apply Hx. rewrite Hid. apply list_elem_of_fmap. eauto.
    + exfalso. apply Hx. rewrite <- Hid. apply list_elem_of_fmap. eauto.
    + by apply IH.
Qed.

Lemma lookup_other_owner_empty s b other :
  unique_ids s → b ∈ rows s → BookResponse.user_id b ≠ other →
  filter (owned_by (BookResponse.id b) other) (rows s) = [].
Proof.
  intros Hu Hb Hne. apply filter_none. intros r Hr [Hid Hown].
  apply Hne. by rewrite <- (unique_ids_same_row s r b Hu Hr Hb Hid).
Qed.

Lemma lookup_missing_empty s missing u :
  (∀ r, r ∈ rows s → BookResponse.id r ≠ missing) →
  filter (owned_by missing u) (rows s) = [].
Proof.
  intros Hm. apply filter_none. intros r Hr [Hid _]. by apply (Hm r).
Qed.

Lemma update_book_not_found str i upd u s :
  filter (owned_by i u) (rows s) = [] →
  run exec_mem (update_book str i upd u) s = rejected_after_lookup i u s.
Proof.
  intros Hnone. rewrite run_update_book, exec_mem_lookup. cbn. by rewrite Hnone.
Qed.

Lemma delete_book_not_found str i u s :
  filter (owned_by i u) (rows s) = [] →
  run exec_mem (delete_book str i u) s = rejected_after_lookup i u s.
Proof.
  intros Hnone. rewrite run_delete_book, exec_mem_lookup. cbn. by rewrite Hnone.
Qed.

(** C1: when user B sends an update or a delete for the id of a book that
    user A owns, the request runs exactly as it does for an id that no row
    has: the owner-scoped lookup is the only store call and it comes back
    empty, the not-found error (404, "Book not found") is raised, and the
    store is left as it was. *)
Theorem other_owner_book_is_not_found
    (str : exn → string) (s : Store) (b : Row) (other missing : string)
    (upd : BookUpdate.t) :
  unique_ids s →
  b ∈ rows s →
  BookResponse.user_id b ≠ other →
  (∀ r, r ∈ rows s → BookResponse.id r ≠ missing) →
  run exec_mem (update_book str (BookResponse.id b) upd other) s
    = rejected_after_lookup (BookResponse.id b) other s
  ∧ run exec_mem (update_book str missing upd other) s
    = rejected_after_lookup missing other s
  ∧ run exec_mem (delete_book str (BookResponse.id b) other) s
    = rejected_after_lookup (BookResponse.id b) other s
  ∧ run exec_mem (delete_book str missing other) s
    = rejected_after_lookup missing other s.
Proof.
  intros Hu Hb Hne Hm.
  pose proof (lookup_other_owner_empty s b other Hu Hb Hne) as Ha.
  pose proof (lookup_missing_empty s missing other Hm) as Hmiss.
  auto using update_book_not_found, delete_book_not_found.
Qed.

Lemma sample_store_unique_ids : unique_ids sample_store.
Proof. unfold unique_ids. apply (bool_decide_unpack _). by vm_compute. Qed.

Lemma other_owner_book_is_not_found_witness :
  let b := {| BookResponse.id := "book-0"; BookResponse.title := "Dune";
              BookResponse.author := "Herbert"; BookResponse.status := "reading";
              BookResponse.created_at := 10; BookResponse.user_id := "alice" |} in
  let upd := BookUpdate.Build (Some "Dune Messiah") None None in
  run exec_mem (update_book starlette_str "book-0" upd "bob") sample_store
    = rejected_after_lookup "book-0" "bob" sample_store
  ∧ run exec_mem (update_book starlette_str "book-9" upd "bob") sample_store
    = rejected_after_lookup "book-9" "bob" sample_store
  ∧ run exec_mem (delete_book starlette_str "book-0" "bob") sample_store
    = rejected_after_lookup "book-0" "bob" sample_store
  ∧ run exec_mem (delete_book starlette_str "book-9" "bob") sample_store
    = rejected_after_lookup "book-9" "bob" sample_store.
Proof.
  intros b upd.
  apply (other_owner_book_is_not_found starlette_str sample_store b "bob" "book-9" upd).
  - exact sample_store_unique_ids.
  - apply list_elem_of_here.
  - discriminate.
  - apply Forall_forall. apply (bool_decide_unpack _). by vm_compute.
Defined.

(** ** Validation *)

Section Validation.
Context (str : exn → string) {W : Type} (exec : Query → W → W * Response).

Lemma status_in_valid_false st : st ∉ valid_statuses → status_in_valid st = false.
Proof. intros H. unfold status_in_valid. by apply bool_decide_eq_false_2. Qed.

Lemma status_in_valid_true st : st ∈ valid_statuses → status_in_valid st = true.
Proof. intros H. unfold status_in_valid. by apply bool_decide_eq_true_2. Qed.

Lemma create_book_invalid_status book u w :
  BookCreate.status book ∉ valid_statuses →
  run exec (create_book str book u) w
  = {| calls := []; final := w; outcome := Raised bad_status |}.
Proof. intros H. by rewrite run_create_book, status_in_valid_false. Qed.

(** The 400 of [get_books] is raised inside its [try] and there is no
    [except HTTPException: raise] clause in front of [except Exception]: the
    caller gets a 500 whose detail is the rendering of the 400. *)
Lemma get_books_invalid_filter f u w :
  f ≠ "" → f ∉ valid_statuses →
  run exec (get_books str (Some f) u) w
  = {| calls := []; final := w;
       outcome := Raised (HTTPException HTTP_500_INTERNAL_SERVER_ERROR (str bad_filter)) |}.
Proof.
  intros Hne Hf. rewrite run_get_books. unfold filter_ok, truthy_opt_str.
  by rewrite (bool_decide_eq_true_2 _ Hne), status_in_valid_false.
Qed.

Lemma update_book_invalid i upd u w :
  fails_validation (UpdateBook i upd) →
  ∃ ans e,
    run exec (update_book str i upd u) w
    = {| calls := [(owner_scoped_lookup i u, ans)];
         final := (exec (owner_scoped_lookup i u) w).1;
         outcome := Raised e |}.
Proof.
  intros Hbad. rewrite run_update_book. cbv zeta.
  destruct (exec (owner_scoped_lookup i u) w) as [w1 [[|b d]|m]]; cbn [fst snd];
    [by eauto| |by eauto].
  destruct Hbad as [(st & Hst & Hbad)| ->].
  - unfold status_ok. rewrite Hst, status_in_valid_false by done. cbn. eauto.
  - cbn. eauto.
Qed.

(** What a request that fails validation does, on any store: it raises, and
    before raising it has made no store call at all (create, list) or only
    the existence lookup (update). *)
Lemma invalid_request_run req u w :
  fails_validation req →
  let r := run exec (handle str req u) w in
  (∃ e, outcome r = Raised e)
  ∧ match req with
    | UpdateBook i _ =>
        ∃ ans, calls r = [(owner_scoped_lookup i u, ans)]
               ∧ final r = (exec (owner_scoped_lookup i u) w).1
    | _ => calls r = [] ∧ final r = w
    end.
Proof.
  intros Hbad r. subst r.
  destruct req as [book|f|i|i upd]; cbn [handle].
  - destruct (run_bind_ret exec Book (create_book str book u) w) as (-> & -> & ->).
    rewrite create_book_invalid_status by done. cbn. eauto.
  - destruct Hbad as (st & -> & Hne & Hst).
    destruct (run_bind_ret exec Books (get_books str (Some st) u) w) as (-> & -> & ->).
    rewrite get_books_invalid_filter by done. cbn. eauto.
  - destruct Hbad.
  - destruct (run_bind_ret exec Book (update_book str i upd u) w) as (-> & -> & ->).
    destruct (update_book_invalid i upd u w Hbad) as (ans & e & ->). cbn. eauto.
Qed.
End Validation.

(** C2: the code departs from the claim.  A list request whose status filter
    is "finished" (supplied, non-empty, not one of the three values) makes no
    store call and is answered with status 500, a server error, and not with
    a client error: the 400 that [get_books] raises is caught by its own
    [except Exception] clause and wrapped. *)
Theorem get_books_invalid_filter_is_server_error :
  let r := run exec_mem (get_books starlette_str (Some "finished") "alice") sample_store in
  r = {| calls := []; final := sample_store;
         outcome := Raised (HTTPException 500
           "400: Status filter must be one of: reading, completed, wishlist") |}
  ∧ is_client_error (response_status (outcome r)) = false
  ∧ is_server_error (response_status (outcome r)) = true.
Proof. repeat split; by vm_compute. Qed.

(** C3, as stated, fails: a create request whose title and author are both
    the empty text, with status "reading", is answered with the created row
    and that row is in the table afterwards. *)
Lemma create_book_accepts_empty_text :
  run exec_mem (create_book starlette_str (BookCreate.Build "" "" "reading") "alice")
    empty_store
  = (let row := {| BookResponse.id := "book-0"; BookResponse.title := "";
                   BookResponse.author := ""; BookResponse.status := "reading";
                   BookResponse.created_at := 0; BookResponse.user_id := "alice" |} in
     {| calls := [(insert_query (BookCreate.Build "" "" "reading") "alice", Data [row])];
        final := {| rows := [row]; next_id := 1; now := 0 |};
        outcome := Returned row |}).
Proof. by vm_compute. Qed.

(** C3, amended: title and author have to be present as text and may be
    empty.  A create request whose status is one of the three values is
    inserted with exactly the title and author it carries, whatever they
    are, and the created row is returned. *)
Theorem create_book_persists_supplied_text
    (str : exn → string) (book : BookCreate.t) (u : string) (s : Store) :
  BookCreate.status book ∈ valid_statuses →
  run exec_mem (create_book str book u) s
  = {| calls := [(insert_query book u, Data [created_row book u s])];
       final := {| rows := rows s ++ [created_row book u s];
                   next_id := S (next_id s); now := now s |};
       outcome := Returned (created_row book u s) |}.
Proof.
  intros Hst. rewrite run_create_book, status_in_valid_true by done.
  cbv zeta. by rewrite exec_mem_insert.
Qed.

Lemma create_book_persists_supplied_text_witness :
  run exec_mem (create_book starlette_str (BookCreate.Build "" "Herbert" "wishlist") "bob")
    sample_store
  = (let book := BookCreate.Build "" "Herbert" "wishlist" in
     {| calls := [(insert_query book "bob", Data [created_row book "bob" sample_store])];
        final := {| rows := rows sample_store ++ [created_row book "bob" sample_store];
                    next_id := 4; now := 40 |};
        outcome := Returned (created_row book "bob" sample_store) |}).
Proof.
  apply (create_book_persists_supplied_text starlette_str
           (BookCreate.Build "" "Herbert" "wishlist") "bob" sample_store).
  apply (bool_decide_unpack _). by vm_compute.
Defined.

(** C4, as stated, fails: an update that carries the status "finished" for a
    book of the caller does reach the store, with the existence lookup,
    before the 400 is raised. *)
Lemma update_book_invalid_status_reaches_store :
  run exec_mem
    (update_book starlette_str "book-0" (BookUpdate.Build None None (Some "finished")) "alice")
    sample_store
  = {| calls := [(owner_scoped_lookup "book-0" "alice",
                  Data [ {| BookResponse.id := "book-0"; BookResponse.title := "Dune";
                            BookResponse.author := "Herbert";
                            BookResponse.status := "reading";
                            BookResponse.created_at := 10;
                            BookResponse.user_id := "alice" |} ])];
       final := sample_store;
       outcome := Raised bad_status |}.
Proof. by vm_compute. Qed.

(** C4, amended: a request that fails validation (a status outside the
    enumeration, a non-empty list filter outside it, an update that supplies
    no field) never returns and never issues a mutating store call, on any
    store.  Create and list raise before any store call.  Update raises
    after exactly one store call, the owner-scoped existence lookup, which
    is a read. *)
Theorem validation_precedes_mutation
    (str : exn → string) {W : Type} (exec : Query → W → W * Response)
    (req : Request) (u : string) (w : W) :
  fails_validation req →
  let r := run exec (handle str req u) w in
  (∀ a, outcome r ≠ Returned a)
  ∧ Forall (λ c, is_mutation c.1 = false) (calls r)
  ∧ match req with
    | UpdateBook i _ => ∃ ans, calls r = [(owner_scoped_lookup i u, ans)]
    | _ => calls r = [] ∧ final r = w
    end.
Proof.
  intros Hbad r. destruct (invalid_request_run str exec req u w Hbad) as [[e He] Hc].
  fold r in He, Hc. split; [by rewrite He|].
  destruct req as [book|f|i|i upd].
  - destruct Hc as [Hc Hf]. rewrite Hc. by repeat split.
  - destruct Hc as [Hc Hf]. rewrite Hc. by repeat split.
  - destruct Hbad.
  - destruct Hc as (ans & Hc & _). rewrite Hc. split; [|by eauto].
    by repeat constructor.
Qed.

Lemma validation_precedes_mutation_witness :
  let req := UpdateBook "book-0" (BookUpdate.Build (Some "Dune II") None (Some "finished")) in
  let r := run exec_mem (handle starlette_str req "alice") sample_store in
  (∀ a, outcome r ≠ Returned a)
  ∧ Forall (λ c, is_mutation c.1 = false) (calls r)
  ∧ ∃ ans, calls r = [(owner_scoped_lookup "book-0" "alice", ans)].
Proof.
  intros req.
  apply (validation_precedes_mutation starlette_str exec_mem req "alice" sample_store).
  left. exists "finished". split; [reflexivity|].
  apply (bool_decide_unpack _). by vm_compute.
Defined.

(** ** A mutation that affects no row *)

Section ZeroRows.
Context (str : exn → string) {W : Type} (exec : Query → W → W * Response).

(** [update_book] looks at the answer of its update: when the existence
    check found the book and the update then comes back with no row, the
    caller gets a 500. *)
Lemma update_book_zero_rows i upd u w b d :
  calls (run exec (update_book str i upd u) w)
  = [(owner_scoped_lookup i u, Data (b :: d)); (update_query i upd u, Data [])] →
  outcome (run exec (update_book str i upd u) w)
  = Raised (HTTPException HTTP_500_INTERNAL_SERVER_ERROR "Failed to update book").
Proof.
  rewrite run_update_book. cbv zeta.
  destruct (exec (owner_scoped_lookup i u) w) as [w1 [[|b' d']|m]]; cbn [fst snd];
    [done| |done].
  destruct (negb (status_ok upd)); [done|].
  destruct (negb (truthy_dict (update_data_of upd))); [done|].
  cbn. intros [= _ _ ->]. done.
Qed.

(** [delete_book] does not: the answer of its delete is bound to [result]
    and never read, so the same situation ends in the success message. *)
Lemma delete_book_zero_rows i u w b d :
  calls (run exec (delete_book str i u) w)
  = [(owner_scoped_lookup i u, Data (b :: d)); (delete_query i u, Data [])] →
  outcome (run exec (delete_book str i u) w) = Returned "Book deleted successfully".
Proof.
  rewrite run_delete_book. cbv zeta.
  destruct (exec (owner_scoped_lookup i u) w) as [w1 [[|b' d']|m]]; cbn [fst snd];
    [done| |done].
  cbn. intros [= _ _ ->]. done.
Qed.
End ZeroRows.

(** C5: the code departs from the claim on delete.  Alice deletes her book
    "book-0" while a second delete request of hers for the same book is
    served between the existence check and the delete: the check finds the row, the delete
    affects no row, and [delete_book] still answers with the success
    message (status 200) where the claim asks for a server error. *)
Theorem delete_book_reports_success_on_zero_rows :
  let racing := delete_query "book-0" "alice" in
  let r := run exec_shared (delete_book starlette_str "book-0" "alice")
             (sample_store, [[]; [racing]]) in
  calls r
  = [(owner_scoped_lookup "book-0" "alice",
      Data [ {| BookResponse.id := "book-0"; BookResponse.title := "Dune";
                BookResponse.author := "Herbert"; BookResponse.status := "reading";
                BookResponse.created_at := 10; BookResponse.user_id := "alice" |} ]);
     (delete_query "book-0" "alice", Data [])]
  ∧ outcome r = Returned "Book deleted successfully"
  ∧ response_status (outcome r) = 200.
Proof. repeat split; by vm_compute. Qed.

(** The same race against [update_book] ends in the 500. *)
Lemma update_book_reports_failure_on_zero_rows :
  let racing := delete_query "book-0" "alice" in
  let r := run exec_shared
             (update_book starlette_str "book-0"
                (BookUpdate.Build None None (Some "completed")) "alice")
             (sample_store, [[]; [racing]]) in
  outcome r = Raised (HTTPException 500 "Failed to update book").
Proof. by vm_compute. Qed.

(** ** An update that supplies nothing *)

(** C6: an update whose body has none of title, author and status fails with
    a client error and changes nothing.  Against any store it cannot issue a
    mutating call, whatever the store answers.  Against the table the only
    call is the existence lookup, the table is left as it was, and the error
    is the 400 "No fields to update" when the caller owns the book (the 404
    of the existence check when not). *)
Theorem update_book_empty_payload_rejected
    (str : exn → string) (i u : string) (s : Store) :
  let nothing := BookUpdate.Build None None None in
  let r := run exec_mem (update_book str i nothing u) s in
  (∀ q, emits (update_book str i nothing u) q → is_mutation q = false)
  ∧ calls r = [(owner_scoped_lookup i u, Data (filter (owned_by i u) (rows s)))]
  ∧ final r = s
  ∧ outcome r = Raised (if truthy_list (filter (owned_by i u) (rows s))
                        then nothing_to_update else not_found)
  ∧ is_client_error (response_status (outcome r)) = true.
Proof.
  intros nothing r. split.
  { intros q Hq. apply emits_update_book in Hq as [->|(_ & _ & Hne)]; [done|].
    by destruct Hne. }
  subst r. rewrite run_update_book, exec_mem_lookup. cbv zeta. cbn [fst snd].
  by destruct (filter (owned_by i u) (rows s)) as [|b d].
Qed.

(** ** Partial update *)

Lemma update_book_success str i upd u s row :
  outcome (run exec_mem (update_book str i upd u) s) = Returned row →
  run exec_mem (update_book str i upd u) s
  = {| calls := [(owner_scoped_lookup i u, Data (filter (owned_by i u) (rows s)));
                 (update_query i upd u,
                  Data (updated_row upd <$> filter (owned_by i u) (rows s)))];
       final := with_rows ((λ r, if decide (owned_by i u r) then updated_row upd r else r)
                             <$> rows s) s;
       outcome := Returned row |}
  ∧ head (updated_row upd <$> filter (owned_by i u) (rows s)) = Some row.
Proof.
  rewrite run_update_book, exec_mem_lookup. cbv zeta. cbn [fst snd].
  destruct (filter (owned_by i u) (rows s)) as [|b d] eqn:Hfound; [done|].
  destruct (negb (status_ok upd)); [done|].
  destruct (negb (truthy_dict (update_data_of upd))); [done|].
  rewrite exec_mem_update, Hfound. cbn. by intros [= ->].
Qed.

(** An update goes through when the caller owns a row of that id, the
    status (if any) is in the enumeration and some field is supplied; the
    first matching row, updated, is what comes back. *)
Lemma update_book_succeeds str i upd u s b d :
  filter (owned_by i u) (rows s) = b :: d →
  status_ok upd = true →
  update_data_of upd ≠ ∅ →
  outcome (run exec_mem (update_book str i upd u) s) = Returned (updated_row upd b).
Proof.
  intros Hfound Hok Hne.
  rewrite run_update_book, exec_mem_lookup. cbv zeta. cbn [fst snd].
  rewrite Hfound, Hok. unfold truthy_dict. rewrite (bool_decide_eq_true_2 _ Hne).
  cbn [negb]. by rewrite exec_mem_update, Hfound.
Qed.

(** C7: a successful update changes, in the rows of the caller that carry
    the given id, exactly the fields that the request supplies, and nothing
    else in the table.  Every row keeps its id, owner and creation time; a
    field that the request omits keeps its value; a supplied field takes the
    supplied value; rows of other ids or owners are untouched; and the
    returned record is such an updated row of the table. *)
Theorem update_book_changes_only_supplied_fields
    (str : exn → string) (i : string) (upd : BookUpdate.t) (u : string)
    (s : Store) (row : Row) :
  outcome (run exec_mem (update_book str i upd u) s) = Returned row →
  let s' := final (run exec_mem (update_book str i upd u) s) in
  Forall2
    (λ old new,
       BookResponse.id new = BookResponse.id old
       ∧ BookResponse.user_id new = BookResponse.user_id old
       ∧ BookResponse.created_at new = BookResponse.created_at old
       ∧ (if decide (owned_by i u old) then
            BookResponse.title new
              = default (BookResponse.title old) (BookUpdate.title upd)
            ∧ BookResponse.author new
              = default (BookResponse.author old) (BookUpdate.author upd)
            ∧ BookResponse.status new
              = default (BookResponse.status old) (BookUpdate.status upd)
          else new = old))
    (rows s) (rows s')
  ∧ next_id s' = next_id s
  ∧ now s' = now s
  ∧ row ∈ rows s'
  ∧ ∃ old, old ∈ rows s ∧ owned_by i u old ∧ row = updated_row upd old.
Proof.
  intros Hok s'. destruct (update_book_success str i upd u s row Hok) as [Hrun Hhead].
  subst s'. rewrite Hrun. cbn [final with_rows rows next_id now].
  assert (∃ old, old ∈ rows s ∧ owned_by i u old ∧ row = updated_row upd old)
    as (old & Hold & Hown & ->).
  { destruct (filter (owned_by i u) (rows s)) as [|b d] eqn:Hfound; [done|].
    injection Hhead as <-. exists b.
    assert (b ∈ filter (owned_by i u) (rows s)) as Hb by (rewrite Hfound; left).
    apply list_elem_of_filter in Hb as [? ?]. done. }
  split; [|split; [done|split; [done|split]]].
  - apply Forall2_fmap_r, Forall_Forall2_diag, Forall_forall. intros r _.
    unfold compose. destruct (decide (owned_by i u r)); by repeat split.
  - apply list_elem_of_fmap. exists old. by rewrite decide_True.
  - by exists old.
Qed.

Lemma update_book_changes_only_supplied_fields_witness :
  let upd := BookUpdate.Build None None (Some "completed") in
  let dune := {| BookResponse.id := "book-0"; BookResponse.title := "Dune";
                 BookResponse.author := "Herbert"; BookResponse.status := "completed";
                 BookResponse.created_at := 10; BookResponse.user_id := "alice" |} in
  let s' := final (run exec_mem (update_book starlette_str "book-0" upd "alice")
                     sample_store) in
  Forall2
    (λ old new,
       BookResponse.id new = BookResponse.id old
       ∧ BookResponse.user_id new = BookResponse.user_id old
       ∧ BookResponse.created_at new = BookResponse.created_at old
       ∧ (if decide (owned_by "book-0" "alice" old) then
            BookResponse.title new
              = default (BookResponse.title old) (BookUpdate.title upd)
            ∧ BookResponse.author new
              = default (BookResponse.author old) (BookUpdate.author upd)
            ∧ BookResponse.status new
              = default (BookResponse.status old) (BookUpdate.status upd)
          else new = old))
    (rows sample_store) (rows s')
  ∧ next_id s' = next_id sample_store
  ∧ now s' = now sample_store
  ∧ dune ∈ rows s'
  ∧ ∃ old, old ∈ rows sample_store ∧ owned_by "book-0" "alice" old
           ∧ dune = updated_row upd old.
Proof.
  intros upd dune.
  apply (update_book_changes_only_supplied_fields starlette_str "book-0" upd "alice"
           sample_store dune).
  by vm_compute.
Defined.

(** ** Listing *)

Lemma newest_first_trans : Transitive newest_first.
Proof. intros a b c. unfold newest_first. lia. Qed.

Lemma newest_first_total : Total newest_first.
Proof. intros a b. unfold newest_first. lia. Qed.

Lemma get_books_accepted str f u s :
  filter_ok f = true →
  let l := merge_sort newest_first
             (filter (wanted (if truthy_opt_str f then f else None) u) (rows s)) in
  run exec_mem (get_books str f u) s
  = {| calls := [(list_query f u, Data l)]; final := s; outcome := Returned l |}.
Proof.
  intros Hok l. subst l. rewrite run_get_books, Hok. cbv zeta.
  destruct (truthy_opt_str f) eqn:Hf.
  - destruct f as [st|]; [|done]. cbn in Hf. apply bool_decide_eq_true_1 in Hf.
    by rewrite exec_mem_list_status.
  - by rewrite exec_mem_list_all.
Qed.

Lemma valid_status_not_empty st : st ∈ valid_statuses → st ≠ "".
Proof.
  unfold valid_statuses. intros Hst ->.
  repeat (apply elem_of_cons in Hst as [Hst|Hst]; [discriminate|]).
  by apply elem_of_nil in Hst.
Qed.

(** C8: a list request with no filter, or with a filter that is one of the
    three values, returns exactly the rows of the table whose owner is the
    caller and, when a filter is given, whose status is the filter (each
    such row once for each time it is in the table, and no other row),
    sorted by [created_at] from the newest to the oldest.  The table is
    left as it was. *)
Theorem get_books_lists_own_books_newest_first
    (str : exn → string) (f : option string) (u : string) (s : Store) :
  match f with Some st => st ∈ valid_statuses | None => True end →
  ∃ l,
    run exec_mem (get_books str f u) s
    = {| calls := [(list_query f u, Data l)]; final := s; outcome := Returned l |}
    ∧ l ≡ₚ filter (wanted f u) (rows s)
    ∧ Forall (wanted f u) l
    ∧ StronglySorted newest_first l.
Proof.
  intros Hf.
  assert (filter_ok f = true ∧ (if truthy_opt_str f then f else None) = f) as [Hok Heq].
  { destruct f as [st|]; [|done]. unfold filter_ok, truthy_opt_str.
    rewrite (bool_decide_eq_true_2 _ (valid_status_not_empty st Hf)).
    by rewrite status_in_valid_true. }
  pose proof (get_books_accepted str f u s Hok) as Hrun. rewrite Heq in Hrun.
  eexists. split; [exact Hrun|].
  assert (merge_sort newest_first (filter (wanted f u) (rows s))
          ≡ₚ filter (wanted f u) (rows s)) as Hperm by apply merge_sort_Permutation.
  split; [done|split].
  - rewrite Hperm. apply Forall_forall. intros r Hr.
    by apply list_elem_of_filter in Hr as [? _].
  - exact (@StronglySorted_merge_sort _ _ _ newest_first_trans newest_first_total _).
Qed.

Lemma get_books_lists_own_books_newest_first_witness :
  ∃ l,
    run exec_mem (get_books starlette_str (Some "completed") "alice") sample_store
    = {| calls := [(list_query (Some "completed") "alice", Data l)];
         final := sample_store; outcome := Returned l |}
    ∧ l ≡ₚ filter (wanted (Some "completed") "alice") (rows sample_store)
    ∧ Forall (wanted (Some "completed") "alice") l
    ∧ StronglySorted newest_first l.
Proof.
  apply (get_books_lists_own_books_newest_first starlette_str (Some "completed") "alice"
           sample_store).
  apply (bool_decide_unpack _). by vm_compute.
Defined.

(** ** Reachable tables *)

Lemma exec_mem_list_reads f u s :
  filter_ok f = true → (exec_mem (list_query f u) s).1 = s.
Proof.
  intros Hok. destruct (truthy_opt_str f) eqn:Hf.
  - destruct f as [st|]; [|done]. cbn in Hf. apply bool_decide_eq_true_1 in Hf.
    by rewrite exec_mem_list_status.
  - by rewrite exec_mem_list_all.
Qed.

Lemma emitted_query_step str req u q s :
  emits (handle str req u) q → store_step s (exec_mem q s).1.
Proof.
  destruct req as [book|f|i|i upd]; cbn [handle]; intros Hq;
    apply emits_bind_ret in Hq.
  - apply emits_create_book in Hq as [Hst ->]. rewrite exec_mem_insert.
    by constructor.
  - apply emits_get_books in Hq as [-> Hok]. rewrite exec_mem_list_reads by done.
    constructor.
  - apply emits_delete_book in Hq as [-> | ->].
    + rewrite exec_mem_lookup. constructor.
    + rewrite exec_mem_delete. constructor.
  - apply emits_update_book in Hq as [-> | (-> & Hok & _)].
    + rewrite exec_mem_lookup. constructor.
    + rewrite exec_mem_update. by constructor.
Qed.

Lemma reachable_steps (P : Store → Prop) str :
  P empty_store →
  (∀ d s, P s → P (tick d s)) →
  (∀ s s', store_step s s' → P s → P s') →
  ∀ s, reachable str s → P s.
Proof.
  intros Hempty Htick Hstep s. induction 1 as [|d s _ IH|req u q s _ IH Hq].
  - done.
  - by apply Htick.
  - eapply Hstep; [|exact IH]. by eapply emitted_query_step.
Qed.

(** A whole request served on its own stays within the reachable tables. *)
Lemma run_final_invariant {W A : Type} (exec : Query → W → W * Response)
    (P : W → Prop) (p : Prog A) (w : W) :
  (∀ q w', emits p q → P w' → P (exec q w').1) →
  P w → P (final (run exec p w)).
Proof.
  revert w. induction p as [a|e|q k IH]; intros w Hstep Hw; cbn; [done..|].
  apply IH.
  - intros q' w' Hq'. apply Hstep. by eapply emits_later.
  - apply Hstep; [constructor|done].
Qed.

Lemma reachable_after_request str req u s :
  reachable str s → reachable str (final (run exec_mem (handle str req u) s)).
Proof.
  apply run_final_invariant. intros q w' Hq Hw'. by eapply reachable_call.
Qed.

Lemma store_step_valid_status s s' :
  store_step s s' → Forall valid_status (rows s) → Forall valid_status (rows s').
Proof.
  destruct 1 as [s|book u s Hst|i upd u s Hok|i u s]; cbn [rows with_rows]; intros Hs.
  - done.
  - apply Forall_app. split; [done|]. by apply Forall_singleton.
  - apply Forall_fmap. eapply Forall_impl; [exact Hs|]. intros r Hr.
    unfold compose. case_decide; [|done].
    unfold valid_status, status_ok in *. cbn.
    destruct (BookUpdate.status upd) as [st|]; cbn; [|done].
    by apply bool_decide_eq_true_1 in Hok.
  - apply Forall_forall. intros r Hr. apply list_elem_of_filter in Hr as [_ Hr].
    by eapply Forall_forall in Hs.
Qed.

Lemma fresh_id_inj k k' : fresh_id k = fresh_id k' → k = k'.
Proof. unfold fresh_id. cbn. intros [= H]. by apply pretty_nat_inj in H. Qed.

Lemma ids_sublist_filter (P : Row → Prop) `{∀ r, Decision (P r)} (l : list Row) :
  NoDup (BookResponse.id <$> l) → NoDup (BookResponse.id <$> filter P l).
Proof.
  induction l as [|r l IH]; [done|]. rewrite fmap_cons, NoDup_cons.
  intros [Hr Hl]. rewrite filter_cons. case_decide; [|by apply IH].
  rewrite fmap_cons, NoDup_cons. split; [|by apply IH].
  intros Hin. apply Hr. apply list_elem_of_fmap in Hin as (r' & -> & Hr').
  apply list_elem_of_filter in Hr' as [_ Hr']. apply list_elem_of_fmap. eauto.
Qed.

Lemma store_step_ids s s' :
  store_step s s' →
  ids_issued s ∧ unique_ids s → ids_issued s' ∧ unique_ids s'.
Proof.
  unfold ids_issued, unique_ids.
  destruct 1 as [s|book u s Hst|i upd u s Hok|i u s];
    cbn [rows with_rows next_id]; intros [Hiss Huniq].
  - done.
  - split.
    + apply Forall_app. split.
      * eapply Forall_impl; [exact Hiss|]. intros r (k & Hk & Hr). exists k.
        split; [lia|done].
      * apply Forall_singleton. exists (next_id s). split; [lia|done].
    + rewrite fmap_app. apply NoDup_app. split; [done|]. split; [|apply NoDup_singleton].
      intros x Hx Hx'. apply list_elem_of_fmap in Hx as (r & -> & Hr).
      apply list_elem_of_singleton in Hx'. cbn in Hx'.
      eapply Forall_forall in Hiss as (k & Hk & Hid); [|exact Hr].
      rewrite Hid in Hx'. apply fresh_id_inj in Hx'. lia.
  - assert (BookResponse.id <$>
              ((λ r, if decide (owned_by i u r) then updated_row upd r else r) <$> rows s)
            = BookResponse.id <$> rows s) as Hsame.
    { rewrite <- list_fmap_compose. apply list_fmap_ext. intros _ r _.
      unfold compose. by case_decide. }
    split; [|by rewrite Hsame].
    apply Forall_fmap. eapply Forall_impl; [exact Hiss|]. intros r Hr.
    unfold compose. by case_decide.
  - split; [|by apply ids_sublist_filter].
    apply Forall_forall. intros r Hr. apply list_elem_of_filter in Hr as [_ Hr].
    by eapply Forall_forall in Hiss.
Qed.

Lemma sample_store_reachable : reachable starlette_str sample_store.
Proof.
  pose (dune := BookCreate.Build "Dune" "Herbert" "reading").
  pose (emma := BookCreate.Build "Emma" "Austen" "completed").
  pose (ulysses := BookCreate.Build "Ulysses" "Joyce" "wishlist").
  replace sample_store with
    (tick 10 (exec_mem (insert_query ulysses "bob")
       (tick 10 (exec_mem (insert_query emma "alice")
          (tick 10 (exec_mem (insert_query dune "alice")
             (tick 10 empty_store)).1)).1)).1) by (by vm_compute).
  apply reachable_tick, (reachable_call _ (CreateBook ulysses) "bob");
    [|vm_compute; apply emits_now].
  apply reachable_tick, (reachable_call _ (CreateBook emma) "alice");
    [|vm_compute; apply emits_now].
  apply reachable_tick, (reachable_call _ (CreateBook dune) "alice");
    [|vm_compute; apply emits_now].
  apply reachable_tick, reachable_empty.
Qed.

(** Ids stay unique in every reachable table, which is what the comparison
    of another owner's id with a missing id rests on. *)
Lemma reachable_unique_ids str s : reachable str s → unique_ids s.
Proof.
  intros Hs. cut (ids_issued s ∧ unique_ids s); [by intros [_ ?]|].
  revert s Hs. apply reachable_steps.
  - split; [constructor|]. unfold unique_ids. cbn. constructor.
  - by intros d s.
  - apply store_step_ids.
Qed.

Lemma invalid_request_keeps_table str req u s :
  fails_validation req →
  final (run exec_mem (handle str req u) s) = s
  ∧ ∃ e, outcome (run exec_mem (handle str req u) s) = Raised e.
Proof.
  intros Hbad. destruct (invalid_request_run str exec_mem req u s Hbad) as [He Hc].
  split; [|done]. destruct req as [book|f|i|i upd]; try by destruct Hc.
  destruct Hc as (ans & _ & ->). by rewrite exec_mem_lookup.
Qed.

(** C9: in every table that can be reached from the empty one, by any
    interleaving of the store calls that the handlers issue, the status of
    every row is one of reading, completed and wishlist.  Create and update
    turn down any other status before they write: such a request ends in an
    error and leaves the table as it was. *)
Theorem persisted_status_is_always_valid (str : exn → string) (s : Store) :
  reachable str s →
  Forall valid_status (rows s)
  ∧ (∀ book u, BookCreate.status book ∉ valid_statuses →
       run exec_mem (create_book str book u) s
       = {| calls := []; final := s; outcome := Raised bad_status |})
  ∧ (∀ i upd u st,
       BookUpdate.status upd = Some st → st ∉ valid_statuses →
       final (run exec_mem (handle str (UpdateBook i upd) u) s) = s
       ∧ ∃ e, outcome (run exec_mem (handle str (UpdateBook i upd) u) s) = Raised e).
Proof.
  intros Hs. split; [|split].
  - revert s Hs. apply reachable_steps.
    + constructor.
    + by intros d s.
    + apply store_step_valid_status.
  - intros book u Hst. by apply create_book_invalid_status.
  - intros i upd u st Hupd Hst. apply invalid_request_keeps_table. left. eauto.
Qed.

Lemma persisted_status_is_always_valid_witness :
  let s := (exec_mem (insert_query (BookCreate.Build "Dune" "Herbert" "reading") "alice")
              empty_store).1 in
  Forall valid_status (rows s)
  ∧ (∀ book u, BookCreate.status book ∉ valid_statuses →
       run exec_mem (create_book starlette_str book u) s
       = {| calls := []; final := s; outcome := Raised bad_status |})
  ∧ (∀ i upd u st,
       BookUpdate.status upd = Some st → st ∉ valid_statuses →
       final (run exec_mem (handle starlette_str (UpdateBook i upd) u) s) = s
       ∧ ∃ e, outcome (run exec_mem (handle starlette_str (UpdateBook i upd) u) s)
              = Raised e).
Proof.
  intros s. apply (persisted_status_is_always_valid starlette_str s).
  apply (reachable_call starlette_str
           (CreateBook (BookCreate.Build "Dune" "Herbert" "reading")) "alice").
  - apply reachable_empty.
  - vm_compute. apply emits_now.
Defined.

(** ** The empty filter *)

(** C10: a list request whose [status_filter] is the empty string is the
    same program as the request without a filter.  The empty string is not
    checked against the enumeration, the one query sent filters on the owner
    only, and all the rows of the caller come back. *)
Theorem get_books_empty_filter_is_no_filter
    (str : exn → string) (u : string) (s : Store) :
  get_books str (Some "") u = get_books str None u
  ∧ list_query (Some "") u
    = (Supabase.table "books" |> Supabase.select "*" |> Supabase.eq "user_id" u
         |> Supabase.order "created_at" true)
  ∧ ∃ l,
      run exec_mem (get_books str (Some "") u) s
      = {| calls := [(list_query (Some "") u, Data l)]; final := s;
           outcome := Returned l |}
      ∧ l ≡ₚ filter (λ r, BookResponse.user_id r = u) (rows s).
Proof.
  split; [reflexivity|]. split; [reflexivity|].
  eexists. split; [by apply get_books_accepted|].
  rewrite merge_sort_Permutation. cbn.
  rewrite (list_filter_iff (wanted None u) (λ r, BookResponse.user_id r = u)); [done|].
  intros r. unfold wanted. tauto.
Qed.

(** * Further properties *)

(** ** Authentication *)

Section AuthFacts.
Context (jwt_decode : string → string → list string → string → Decoded)
        (secret : string).

Lemma get_current_user_cases token :
  let decoded := jwt_decode token secret ["HS256"] "authenticated" in
  get_current_user jwt_decode secret token
  = match decoded with
    | Payload payload =>
        match payload !! "sub" with
        | Some u => if decide (u = "") then Raise invalid_token else Ret u
        | None => Raise invalid_token
        end
    | InvalidTokenError _ => Raise invalid_token
    | OtherError m => Raise (Exception m)
    end.
Proof.
  unfold get_current_user. cbv zeta.
  destruct (jwt_decode _ _ _ _) as [payload|m|m]; [|done..].
  destruct (payload !! "sub") as [u|]; cbn; [|done].
  case_decide as Hu.
  - by rewrite bool_decide_eq_false_2 by (intros H; by apply H).
  - by rewrite bool_decide_eq_true_2.
Qed.

(** X1: [get_current_user] lets a request through exactly when the decoder
    accepts the token and its payload has a non-empty [sub], and then it
    returns that [sub].  A token the decoder rejects as invalid, a payload
    without [sub] and a payload whose [sub] is empty all end in the same
    401 "Invalid token".  It is handed the secret, the one algorithm HS256
    and the audience "authenticated", and it never calls the store. *)
Theorem get_current_user_accepts_nonempty_sub
    {W : Type} (exec : Query → W → W * Response) (token : string) (w : W) :
  let decoded := jwt_decode token secret ["HS256"] "authenticated" in
  let r := run exec (get_current_user jwt_decode secret token) w in
  calls r = [] ∧ final r = w
  ∧ (∀ u, outcome r = Returned u
          ↔ ∃ payload, decoded = Payload payload ∧ payload !! "sub" = Some u ∧ u ≠ "")
  ∧ ((∀ m, decoded ≠ OtherError m) →
     (∀ u, outcome r ≠ Returned u) → outcome r = Raised invalid_token).
Proof.
  intros decoded r. subst r. rewrite get_current_user_cases. fold decoded.
  destruct decoded as [payload|m|m].
  - destruct (payload !! "sub") as [u|] eqn:Hsub.
    + case_decide as Hu; cbn.
      * repeat split; try done.
        intros (p & [= <-] & Hp & Hne). rewrite Hsub in Hp. by injection Hp as <-.
      * repeat split; try done.
        -- intros [= <-]. eauto.
        -- intros (p & [= <-] & Hp & _). rewrite Hsub in Hp. by injection Hp as ->.
        -- intros _ H. by destruct (H u).
    + cbn. repeat split; try done.
      intros (p & [= <-] & Hp & _). by rewrite Hsub in Hp.
  - cbn. repeat split; try done. by intros (p & ? & _).
  - cbn. repeat split; try done.
    + by intros (p & ? & _).
    + intros H. by destruct (H m).
Qed.

Lemma run_endpoint {W : Type} (exec : Query → W → W * Response) str token req w :
  run exec (endpoint jwt_decode secret str token req) w
  = match outcome (run exec (get_current_user jwt_decode secret token) w) with
    | Returned u => run exec (handle str req u) w
    | Raised e => {| calls := []; final := w; outcome := Raised e |}
    end.
Proof.
  unfold endpoint, mbind, Prog_bind. rewrite get_current_user_cases. cbv zeta.
  destruct (jwt_decode _ _ _ _) as [payload|m|m]; [|done..].
  destruct (payload !! "sub") as [u|]; [|done]. by case_decide.
Qed.

(** X2: a book route runs its handler with the [sub] of an accepted token
    as [user_id], and with nothing else.  When the decoder rejects the token
    as invalid, or the payload has no [sub] or an empty one, the handler is
    not run at all: whatever the request asks for, the route makes no store
    call, leaves the store as it is and answers 401 "Invalid token". *)
Theorem endpoint_runs_handler_as_token_subject
    {W : Type} (exec : Query → W → W * Response) (str : exn → string)
    (token : string) (req : Request) (w : W) :
  let decoded := jwt_decode token secret ["HS256"] "authenticated" in
  let r := run exec (endpoint jwt_decode secret str token req) w in
  (∀ payload u,
     decoded = Payload payload → payload !! "sub" = Some u → u ≠ "" →
     r = run exec (handle str req u) w)
  ∧ (∀ m, decoded = InvalidTokenError m →
       r = {| calls := []; final := w; outcome := Raised invalid_token |})
  ∧ (∀ payload,
       decoded = Payload payload →
       payload !! "sub" = None ∨ payload !! "sub" = Some "" →
       r = {| calls := []; final := w; outcome := Raised invalid_token |}).
Proof.
  intros decoded r. subst r. rewrite run_endpoint, get_current_user_cases.
  fold decoded. split; [|split].
  - intros payload u -> -> Hu. by rewrite decide_False.
  - by intros m ->.
  - by intros payload -> [-> | ->].
Qed.
End AuthFacts.

(** ** What the handlers send to the store *)

Lemma emits_handle str req u q :
  emits (handle str req u) q →
  match req with
  | CreateBook book =>
      BookCreate.status book ∈ valid_statuses ∧ q = insert_query book u
  | GetBooks f => q = list_query f u ∧ filter_ok f = true
  | DeleteBook i => q = owner_scoped_lookup i u ∨ q = delete_query i u
  | UpdateBook i upd =>
      q = owner_scoped_lookup i u
      ∨ (q = update_query i upd u ∧ status_ok upd = true ∧ update_data_of upd ≠ ∅)
  end.
Proof.
  destruct req as [book|f|i|i upd]; cbn [handle]; intros Hq;
    apply emits_bind_ret in Hq.
  - by apply emits_create_book in Hq.
  - by apply emits_get_books in Hq.
  - by apply emits_delete_book in Hq.
  - by apply emits_update_book in Hq.
Qed.

(** X3: every query that any handler can send, for any request and whatever
    the store answers, is on the table "books" and is scoped to the caller:
    an insert writes the caller as [user_id], and every select, update and
    delete filters on [user_id] equal to the caller. *)
Theorem every_query_is_owner_scoped
    (str : exn → string) (req : Request) (u : string) (q : Query) :
  emits (handle str req u) q →
  q_table q = "books"
  ∧ match q_verb q with
    | VInsert values => values !! "user_id" = Some u
    | _ => ("user_id", u) ∈ q_filters q
    end.
Proof.
  intros Hq. apply emits_handle in Hq.
  destruct req as [book|f|i|i upd].
  - destruct Hq as [_ ->]. split; [done|]. cbn. apply lookup_insert_eq.
  - destruct Hq as [-> _]. unfold list_query.
    destruct (truthy_opt_str f); (split; [done|]); cbn; apply list_elem_of_here.
  - destruct Hq as [-> | ->]; (split; [done|]); cbn;
      apply list_elem_of_further, list_elem_of_here.
  - destruct Hq as [-> | (-> & _ & _)]; (split; [done|]); cbn;
      apply list_elem_of_further, list_elem_of_here.
Qed.

Lemma every_query_is_owner_scoped_witness :
  let q := update_query "book-0" (BookUpdate.Build (Some "Dune II") None None) "alice" in
  q_table q = "books"
  ∧ match q_verb q with
    | VInsert values => values !! "user_id" = Some "alice"
    | _ => ("user_id", "alice") ∈ q_filters q
    end.
Proof.
  intros q.
  apply (every_query_is_owner_scoped starlette_str
           (UpdateBook "book-0" (BookUpdate.Build (Some "Dune II") None None)) "alice" q).
  unfold handle, update_book, mbind, Prog_bind, execute. cbn.
  apply (emits_later _ _ (Data [ {| BookResponse.id := "book-0"; BookResponse.title := "Dune";
                                    BookResponse.author := "Herbert";
                                    BookResponse.status := "reading";
                                    BookResponse.created_at := 10;
                                    BookResponse.user_id := "alice" |} ])).
  vm_compute. apply emits_now.
Defined.

Lemma update_data_lookup upd :
  update_data_of upd !! "title" = BookUpdate.title upd
  ∧ update_data_of upd !! "author" = BookUpdate.author upd
  ∧ update_data_of upd !! "status" = BookUpdate.status upd
  ∧ dom (update_data_of upd) ⊆ list_to_set ["title"; "author"; "status"].
Proof.
  destruct upd as [[t|] [a|] [st|]]; repeat split;
    solve [by vm_compute | apply (bool_decide_unpack _); by vm_compute].
Qed.

(** X4: what a write carries.  The insert of [create_book] has exactly the
    columns title, author, status and user_id, with the values of the request
    and the caller; the update of [update_book] has no column besides title,
    author and status, has at least one, and holds for each the value the
    request supplies.  Neither ever sets [id] or [created_at], and an update
    never sets [user_id]. *)
Theorem writes_carry_only_request_fields
    (str : exn → string) (req : Request) (u : string) (q : Query) :
  emits (handle str req u) q →
  match q_verb q with
  | VSelect _ | VDelete => True
  | VInsert values =>
      ∃ book, req = CreateBook book
        ∧ dom values = list_to_set ["title"; "author"; "status"; "user_id"]
        ∧ values !! "title" = Some (BookCreate.title book)
        ∧ values !! "author" = Some (BookCreate.author book)
        ∧ values !! "status" = Some (BookCreate.status book)
        ∧ values !! "user_id" = Some u
  | VUpdate values =>
      ∃ i upd, req = UpdateBook i upd
        ∧ dom values ⊆ list_to_set ["title"; "author"; "status"]
        ∧ values ≠ ∅
        ∧ values !! "title" = BookUpdate.title upd
        ∧ values !! "author" = BookUpdate.author upd
        ∧ values !! "status" = BookUpdate.status upd
  end.
Proof.
  intros Hq. apply emits_handle in Hq.
  destruct req as [book|f|i|i upd].
  - destruct Hq as [_ ->].
    destruct (insert_values_lookup book u) as (m & Hm & Hdom & Ht & Ha & Hst & Hu).
    cbv zeta in Hm. rewrite Hm. by exists book.
  - destruct Hq as [-> _]. unfold list_query. by destruct (truthy_opt_str f).
  - by destruct Hq as [-> | ->].
  - destruct Hq as [-> | (-> & _ & Hne)]; [done|].
    destruct (update_data_lookup upd) as (Ht & Ha & Hst & Hdom).
    cbn. by exists i, upd.
Qed.

Lemma writes_carry_only_request_fields_witness :
  let book := BookCreate.Build "Dune" "Herbert" "reading" in
  match q_verb (insert_query book "alice") with
  | VSelect _ | VDelete => True
  | VInsert values =>
      ∃ book', CreateBook book = CreateBook book'
        ∧ dom values = list_to_set ["title"; "author"; "status"; "user_id"]
        ∧ values !! "title" = Some (BookCreate.title book')
        ∧ values !! "author" = Some (BookCreate.author book')
        ∧ values !! "status" = Some (BookCreate.status book')
        ∧ values !! "user_id" = Some "alice"
  | VUpdate values =>
      ∃ i upd, CreateBook book = UpdateBook i upd
        ∧ dom values ⊆ list_to_set ["title"; "author"; "status"]
        ∧ values ≠ ∅
        ∧ values !! "title" = BookUpdate.title upd
        ∧ values !! "author" = BookUpdate.author upd
        ∧ values !! "status" = BookUpdate.status upd
  end.
Proof.
  intros book.
  apply (writes_carry_only_request_fields starlette_str (CreateBook book) "alice"
           (insert_query book "alice")).
  vm_compute. apply emits_now.
Defined.

(** ** Isolation between users *)

Lemma filter_others_update i upd u (l : list Row) :
  filter (λ r, BookResponse.user_id r ≠ u)
    ((λ r, if decide (owned_by i u r) then updated_row upd r else r) <$> l)
  = filter (λ r, BookResponse.user_id r ≠ u) l.
Proof.
  induction l as [|r l IH]; [done|].
  rewrite fmap_cons, !filter_cons, IH.
  destruct (decide (owned_by i u r)) as [[_ Hu]|Hno]; [|done].
  rewrite !decide_False; [done|by intros H; apply H..].
Qed.

Lemma filter_others_delete i u (l : list Row) :
  filter (λ r, BookResponse.user_id r ≠ u) (filter (λ r, ¬ owned_by i u r) l)
  = filter (λ r, BookResponse.user_id r ≠ u) l.
Proof.
  rewrite list_filter_filter. apply list_filter_iff. intros r. unfold owned_by.
  split; [by intros [? _]|]. intros Hu. split; [done|]. by intros [_ ?].
Qed.

Lemma emitted_query_keeps_others str req u q s :
  emits (handle str req u) q →
  filter (λ r, BookResponse.user_id r ≠ u) (rows (exec_mem q s).1)
  = filter (λ r, BookResponse.user_id r ≠ u) (rows s).
Proof.
  intros Hq. apply emits_handle in Hq. destruct req as [book|f|i|i upd].
  - destruct Hq as [_ ->]. rewrite exec_mem_insert. cbn [fst rows].
    rewrite filter_app, filter_cons, decide_False by (by intros H; apply H).
    by rewrite filter_nil, app_nil_r.
  - destruct Hq as [-> Hok]. by rewrite exec_mem_list_reads.
  - destruct Hq as [-> | ->].
    + by rewrite exec_mem_lookup.
    + rewrite exec_mem_delete. apply filter_others_delete.
  - destruct Hq as [-> | (-> & _ & _)].
    + by rewrite exec_mem_lookup.
    + rewrite exec_mem_update. apply filter_others_update.
Qed.

(** X5: no request touches the rows of another user.  Whatever user [u]
    asks for, valid or not, the rows of the table whose owner is not [u] are
    after the request what they were before it, in the same order; and this
    holds already for each single query a handler of [u] can send. *)
Theorem requests_leave_other_users_rows
    (str : exn → string) (req : Request) (u : string) (s : Store) :
  filter (λ r, BookResponse.user_id r ≠ u)
    (rows (final (run exec_mem (handle str req u) s)))
  = filter (λ r, BookResponse.user_id r ≠ u) (rows s)
  ∧ ∀ q s', emits (handle str req u) q →
      filter (λ r, BookResponse.user_id r ≠ u) (rows (exec_mem q s').1)
      = filter (λ r, BookResponse.user_id r ≠ u) (rows s').
Proof.
  split; [|intros q s'; apply emitted_query_keeps_others].
  apply (run_final_invariant exec_mem
           (λ w, filter (λ r, BookResponse.user_id r ≠ u) (rows w)
                 = filter (λ r, BookResponse.user_id r ≠ u) (rows s))); [|done].
  intros q w' Hq <-. by eapply emitted_query_keeps_others.
Qed.

(** ** Delete *)

Lemma delete_book_found str i u s b d :
  filter (owned_by i u) (rows s) = b :: d →
  run exec_mem (delete_book str i u) s
  = {| calls := [(owner_scoped_lookup i u, Data (b :: d));
                 (delete_query i u, Data (b :: d))];
       final := with_rows (filter (λ r, ¬ owned_by i u r) (rows s)) s;
       outcome := Returned "Book deleted successfully" |}.
Proof.
  intros Hfound. rewrite run_delete_book, exec_mem_lookup. cbv zeta. cbn [fst snd].
  rewrite Hfound. by rewrite exec_mem_delete, Hfound.
Qed.

Lemma filter_owned_after_delete i u (l : list Row) :
  filter (owned_by i u) (filter (λ r, ¬ owned_by i u r) l) = [].
Proof.
  apply filter_none. intros r Hr Hown.
  by apply list_elem_of_filter in Hr as [Hno _].
Qed.

(** X6: when the caller owns a book of the given id, [delete_book] answers
    with the success message, and afterwards the table holds exactly the
    rows it held before except those of that id and owner, in the same
    order; the store's id counter and clock are not changed. *)
Theorem delete_book_removes_the_owned_rows
    (str : exn → string) (i u : string) (s : Store) (b : Row) :
  b ∈ rows s → owned_by i u b →
  let r := run exec_mem (delete_book str i u) s in
  outcome r = Returned "Book deleted successfully"
  ∧ rows (final r) = filter (λ r, ¬ owned_by i u r) (rows s)
  ∧ (b ∉ rows (final r))
  ∧ next_id (final r) = next_id s
  ∧ now (final r) = now s.
Proof.
  intros Hb Hown r.
  destruct (filter (owned_by i u) (rows s)) as [|b' d] eqn:Hfound.
  { exfalso. eapply (filter_nil_not_elem_of (owned_by i u)); eauto. }
  subst r. rewrite (delete_book_found str i u s b' d Hfound). cbn.
  repeat split; try done.
  intros Hin. by apply list_elem_of_filter in Hin as [Hno _].
Qed.

Lemma delete_book_removes_the_owned_rows_witness :
  let r := run exec_mem (delete_book starlette_str "book-1" "alice") sample_store in
  let emma := {| BookResponse.id := "book-1"; BookResponse.title := "Emma";
                 BookResponse.author := "Austen"; BookResponse.status := "completed";
                 BookResponse.created_at := 20; BookResponse.user_id := "alice" |} in
  outcome r = Returned "Book deleted successfully"
  ∧ rows (final r) = filter (λ r, ¬ owned_by "book-1" "alice" r) (rows sample_store)
  ∧ (emma ∉ rows (final r))
  ∧ next_id (final r) = next_id sample_store
  ∧ now (final r) = now sample_store.
Proof.
  intros r emma.
  apply (delete_book_removes_the_owned_rows starlette_str "book-1" "alice" sample_store emma).
  - apply list_elem_of_further, list_elem_of_here.
  - by split.
Defined.

(** X7: a second delete of the same id by the same user is always answered
    with the not-found error: after [delete_book], whether it removed
    something or not, the same call finds nothing, raises 404 "Book not
    found" after its lookup and leaves the table as the first call left it.
    The same goes for an update of that id after the delete. *)
Theorem delete_book_twice_is_not_found
    (str : exn → string) (i u : string) (upd : BookUpdate.t) (s : Store) :
  let s' := final (run exec_mem (delete_book str i u) s) in
  run exec_mem (delete_book str i u) s' = rejected_after_lookup i u s'
  ∧ run exec_mem (update_book str i upd u) s' = rejected_after_lookup i u s'.
Proof.
  intros s'.
  assert (filter (owned_by i u) (rows s') = []) as Hnone.
  { subst s'. destruct (filter (owned_by i u) (rows s)) as [|b d] eqn:Hfound.
    - by rewrite delete_book_not_found.
    - rewrite (delete_book_found str i u s b d Hfound). cbn.
      apply filter_owned_after_delete. }
  split; [by apply delete_book_not_found|by apply update_book_not_found].
Qed.

(** ** Create, then list *)

Lemma create_book_on_table str book u s :
  BookCreate.status book ∈ valid_statuses →
  run exec_mem (create_book str book u) s
  = {| calls := [(insert_query book u, Data [created_row book u s])];
       final := {| rows := rows s ++ [created_row book u s];
                   next_id := S (next_id s); now := now s |};
       outcome := Returned (created_row book u s) |}.
Proof.
  intros Hst. rewrite run_create_book, status_in_valid_true by done.
  cbv zeta. by rewrite exec_mem_insert.
Qed.

Lemma listed_iff_wanted str f u s r :
  filter_ok f = true →
  ∃ l, outcome (run exec_mem (get_books str f u) s) = Returned l
       ∧ (r ∈ l ↔ r ∈ rows s ∧ wanted (if truthy_opt_str f then f else None) u r).
Proof.
  intros Hok. pose proof (get_books_accepted str f u s Hok) as Hrun. cbv zeta in Hrun.
  eexists. split; [by rewrite Hrun|].
  rewrite merge_sort_Permutation, list_elem_of_filter. tauto.
Qed.

(** X8: a book that was just created is in the list of its owner, and only
    there.  After a create with an acceptable status, the owner's list
    contains the created row when no filter is given (or an empty one) and
    when the filter is the row's status, and does not contain it under any
    other accepted filter; the list of any other user never contains it. *)
Theorem created_book_is_listed_for_its_owner
    (str : exn → string) (book : BookCreate.t) (u : string)
    (f : option string) (s : Store) :
  BookCreate.status book ∈ valid_statuses →
  filter_ok f = true →
  let created := created_row book u s in
  let s' := final (run exec_mem (create_book str book u) s) in
  outcome (run exec_mem (create_book str book u) s) = Returned created
  ∧ (∃ l, outcome (run exec_mem (get_books str f u) s') = Returned l
          ∧ (created ∈ l
             ↔ truthy_opt_str f = false ∨ f = Some (BookCreate.status book)))
  ∧ (∀ u', u' ≠ u →
       ∃ l', outcome (run exec_mem (get_books str f u') s') = Returned l'
             ∧ created ∉ l').
Proof.
  intros Hst Hok created s'. subst s'.
  rewrite (create_book_on_table str book u s Hst). cbn [outcome final].
  split; [done|]. split.
  - destruct (listed_iff_wanted str f u
                {| rows := rows s ++ [created]; next_id := S (next_id s); now := now s |}
                created Hok) as (l & Hl & Hin).
    exists l. split; [done|]. rewrite Hin. cbn [rows]. unfold wanted.
    assert (created ∈ (rows s ++ [created])%list) as Hmem
      by (apply elem_of_app; right; apply list_elem_of_here).
    destruct (truthy_opt_str f) eqn:Hf.
    + destruct f as [st|]; [|done]. cbn. split.
      * intros (_ & _ & <-). by right.
      * intros [?|[= <-]]; done.
    + split; [by left|done].
  - intros u' Hu'.
    destruct (listed_iff_wanted str f u'
                {| rows := rows s ++ [created]; next_id := S (next_id s); now := now s |}
                created Hok) as (l' & Hl' & Hin).
    exists l'. split; [done|]. rewrite Hin. unfold wanted. cbn.
    intros (_ & Hu & _). by apply Hu'.
Qed.

Lemma created_book_is_listed_for_its_owner_witness :
  let book := BookCreate.Build "Dune" "Herbert" "reading" in
  let created := created_row book "alice" empty_store in
  let s' := final (run exec_mem (create_book starlette_str book "alice") empty_store) in
  outcome (run exec_mem (create_book starlette_str book "alice") empty_store)
  = Returned created
  ∧ (∃ l, outcome (run exec_mem (get_books starlette_str (Some "completed") "alice") s')
          = Returned l
          ∧ (created ∈ l
             ↔ truthy_opt_str (Some "completed") = false
               ∨ Some "completed" = Some (BookCreate.status book)))
  ∧ (∀ u', u' ≠ "alice" →
       ∃ l', outcome (run exec_mem (get_books starlette_str (Some "completed") u') s')
             = Returned l'
             ∧ created ∉ l').
Proof.
  intros book.
  apply (created_book_is_listed_for_its_owner starlette_str book "alice"
           (Some "completed") empty_store).
  - apply (bool_decide_unpack _). by vm_compute.
  - by vm_compute.
Defined.

(** ** Update, twice *)

Lemma updated_row_idem upd r : updated_row upd (updated_row upd r) = updated_row upd r.
Proof. by destruct upd as [[t|] [a|] [st|]], r. Qed.

Lemma owned_by_updated_row i u upd r :
  owned_by i u (updated_row upd r) ↔ owned_by i u r.
Proof. done. Qed.

Lemma filter_owned_update i upd u (l : list Row) :
  filter (owned_by i u)
    ((λ r, if decide (owned_by i u r) then updated_row upd r else r) <$> l)
  = updated_row upd <$> filter (owned_by i u) l.
Proof.
  induction l as [|r l IH]; [done|].
  rewrite fmap_cons, !filter_cons, IH.
  destruct (decide (owned_by i u r)) as [Hown|Hno].
  - by rewrite decide_True by (by apply owned_by_updated_row).
  - by rewrite decide_False.
Qed.

Lemma update_twice_rows i upd u (l : list Row) :
  (λ r, if decide (owned_by i u r) then updated_row upd r else r)
    <$> ((λ r, if decide (owned_by i u r) then updated_row upd r else r) <$> l)
  = (λ r, if decide (owned_by i u r) then updated_row upd r else r) <$> l.
Proof.
  rewrite <- list_fmap_compose. apply list_fmap_ext. intros _ r _. unfold compose.
  destruct (decide (owned_by i u r)) as [Hown|Hno].
  - rewrite decide_True by (by apply owned_by_updated_row). apply updated_row_idem.
  - by rewrite decide_False.
Qed.

Lemma update_book_success_inv str i upd u s row :
  outcome (run exec_mem (update_book str i upd u) s) = Returned row →
  status_ok upd = true ∧ update_data_of upd ≠ ∅
  ∧ ∃ b d, filter (owned_by i u) (rows s) = b :: d ∧ row = updated_row upd b.
Proof.
  rewrite run_update_book, exec_mem_lookup. cbv zeta. cbn [fst snd].
  destruct (filter (owned_by i u) (rows s)) as [|b d] eqn:Hfound; [done|].
  destruct (status_ok upd); [|done]. cbn [negb].
  unfold truthy_dict. case_bool_decide as Hne; [|done]. cbn [negb].
  rewrite exec_mem_update, Hfound. cbn. intros [= <-]. eauto 6.
Qed.

(** X9: a successful update can be repeated without further effect: the
    same request, sent again right after, succeeds again, returns the same
    record and leaves the table as the first one left it. *)
Theorem update_book_is_idempotent
    (str : exn → string) (i : string) (upd : BookUpdate.t) (u : string)
    (s : Store) (row : Row) :
  outcome (run exec_mem (update_book str i upd u) s) = Returned row →
  let s' := final (run exec_mem (update_book str i upd u) s) in
  outcome (run exec_mem (update_book str i upd u) s') = Returned row
  ∧ final (run exec_mem (update_book str i upd u) s') = s'.
Proof.
  intros Hok s'.
  destruct (update_book_success_inv str i upd u s row Hok)
    as (Hst & Hne & b & d & Hfound & ->).
  destruct (update_book_success str i upd u s _ Hok) as [Hrun _].
  assert (s' = with_rows ((λ r, if decide (owned_by i u r) then updated_row upd r else r)
                            <$> rows s) s) as Hs' by (subst s'; by rewrite Hrun).
  assert (filter (owned_by i u) (rows s')
          = updated_row upd b :: (updated_row upd <$> d)) as Hfound'.
  { rewrite Hs'. cbn [rows with_rows]. by rewrite filter_owned_update, Hfound. }
  pose proof (update_book_succeeds str i upd u s' _ _ Hfound' Hst Hne) as Hagain.
  rewrite updated_row_idem in Hagain. split; [done|].
  destruct (update_book_success str i upd u s' _ Hagain) as [Hrun' _].
  rewrite Hrun'. cbn [final]. rewrite Hs'. cbn [rows with_rows].
  unfold with_rows. cbn. by rewrite update_twice_rows.
Qed.

Lemma update_book_is_idempotent_witness :
  let upd := BookUpdate.Build (Some "Dune Messiah") None (Some "completed") in
  let row := {| BookResponse.id := "book-0"; BookResponse.title := "Dune Messiah";
                BookResponse.author := "Herbert"; BookResponse.status := "completed";
                BookResponse.created_at := 10; BookResponse.user_id := "alice" |} in
  let s' := final (run exec_mem (update_book starlette_str "book-0" upd "alice")
                     sample_store) in
  outcome (run exec_mem (update_book starlette_str "book-0" upd "alice") s') = Returned row
  ∧ final (run exec_mem (update_book starlette_str "book-0" upd "alice") s') = s'.
Proof.
  intros upd row.
  apply (update_book_is_idempotent starlette_str "book-0" upd "alice" sample_store row).
  by vm_compute.
Defined.

(** ** Failures *)

Section Failures.
Context (str : exn → string) {W : Type} (exec : Query → W → W * Response).

Lemma handle_outcome req u w :
  outcome (run exec (handle str req u) w)
  = match req with
    | CreateBook book =>
        match outcome (run exec (create_book str book u) w) with
        | Returned r => Returned (Book r)
        | Raised e => Raised e
        end
    | GetBooks f =>
        match outcome (run exec (get_books str f u) w) with
        | Returned l => Returned (Books l)
        | Raised e => Raised e
        end
    | DeleteBook i =>
        match outcome (run exec (delete_book str i u) w) with
        | Returned m => Returned (Message m)
        | Raised e => Raised e
        end
    | UpdateBook i upd =>
        match outcome (run exec (update_book str i upd u) w) with
        | Returned r => Returned (Book r)
        | Raised e => Raised e
        end
    end.
Proof.
  destruct req as [book|f|i|i upd]; cbn [handle].
  - by destruct (run_bind_ret exec Book (create_book str book u) w) as (_ & _ & ->).
  - by destruct (run_bind_ret exec Books (get_books str f u) w) as (_ & _ & ->).
  - by destruct (run_bind_ret exec Message (delete_book str i u) w) as (_ & _ & ->).
  - by destruct (run_bind_ret exec Book (update_book str i upd u) w) as (_ & _ & ->).
Qed.

Lemma handle_calls_final req u w :
  calls (run exec (handle str req u) w)
  = match req with
    | CreateBook book => calls (run exec (create_book str book u) w)
    | GetBooks f => calls (run exec (get_books str f u) w)
    | DeleteBook i => calls (run exec (delete_book str i u) w)
    | UpdateBook i upd => calls (run exec (update_book str i upd u) w)
    end
  ∧ final (run exec (handle str req u) w)
    = match req with
      | CreateBook book => final (run exec (create_book str book u) w)
      | GetBooks f => final (run exec (get_books str f u) w)
      | DeleteBook i => final (run exec (delete_book str i u) w)
      | UpdateBook i upd => final (run exec (update_book str i upd u) w)
      end.
Proof.
  destruct req as [book|f|i|i upd]; cbn [handle].
  - by destruct (run_bind_ret exec Book (create_book str book u) w) as (-> & -> & _).
  - by destruct (run_bind_ret exec Books (get_books str f u) w) as (-> & -> & _).
  - by destruct (run_bind_ret exec Message (delete_book str i u) w) as (-> & -> & _).
  - by destruct (run_bind_ret exec Book (update_book str i upd u) w) as (-> & -> & _).
Qed.

(** X10: whatever the store answers, a handler that does not return raises
    an [HTTPException], never an exception of another class, and its status
    code is one of the route's own: 400 or 500 for create, 500 for list (the
    list route has no way to answer 400), 404 or 500 for delete, and 400,
    404 or 500 for update. *)
Theorem handlers_fail_with_their_own_codes (req : Request) (u : string) (w : W) :
  match outcome (run exec (handle str req u) w) with
  | Returned _ => True
  | Raised (HTTPException c _) => c ∈ error_codes req
  | Raised (Exception _) => False
  end.
Proof.
  rewrite handle_outcome. destruct req as [book|f|i|i upd]; cbn [error_codes].
  - rewrite run_create_book. destruct (status_in_valid _); cbv zeta; cbn.
    + destruct (exec _ w) as [w1 [[|r d]|m]]; cbn; try done;
        apply list_elem_of_further, list_elem_of_here.
    + apply list_elem_of_here.
  - rewrite run_get_books. destruct (filter_ok f); cbv zeta; cbn.
    + destruct (exec _ w) as [w1 [d|m]]; cbn; [done|apply list_elem_of_here].
    + apply list_elem_of_here.
  - rewrite run_delete_book. cbv zeta.
    destruct (exec (owner_scoped_lookup i u) w) as [w1 [[|b d]|m]]; cbn [fst snd outcome].
    + apply list_elem_of_here.
    + destruct (exec (delete_query i u) w1) as [w2 [d'|m]]; cbn; [done|].
      apply list_elem_of_further, list_elem_of_here.
    + apply list_elem_of_further, list_elem_of_here.
  - rewrite run_update_book. cbv zeta.
    destruct (exec (owner_scoped_lookup i u) w) as [w1 [[|b d]|m]]; cbn [fst snd outcome].
    + apply list_elem_of_further, list_elem_of_here.
    + destruct (negb (status_ok upd)); [apply list_elem_of_here|].
      destruct (negb (truthy_dict _)); [apply list_elem_of_here|].
      destruct (exec (update_query i upd u) w1) as [w2 [[|r d']|m]]; cbn; try done;
        apply list_elem_of_further, list_elem_of_further, list_elem_of_here.
    + apply list_elem_of_further, list_elem_of_further, list_elem_of_here.
Qed.

(** X11: when the store raises on the first call of a request, the route
    makes no further call and answers 500 with the rendering of the store's
    exception as detail.  This holds for every request that gets as far as
    its first store call: each delete and update, a create with an
    acceptable status, a list with an acceptable filter. *)
Theorem store_failure_is_reported_as_500
    (req : Request) (u : string) (w : W) (m : string) :
  reaches_store req →
  (exec (first_query req u) w).2 = Failure m →
  calls (run exec (handle str req u) w) = [(first_query req u, Failure m)]
  ∧ outcome (run exec (handle str req u) w)
    = Raised (HTTPException HTTP_500_INTERNAL_SERVER_ERROR (str (Exception m))).
Proof.
  intros Hreach Hfail. rewrite handle_outcome.
  destruct (handle_calls_final req u w) as [-> _].
  destruct req as [book|f|i|i upd]; cbn [first_query reaches_store] in *.
  - rewrite run_create_book, status_in_valid_true by done. cbv zeta. cbn.
    by rewrite Hfail.
  - rewrite run_get_books, Hreach. cbv zeta. cbn. by rewrite Hfail.
  - rewrite run_delete_book. cbv zeta. by rewrite Hfail.
  - rewrite run_update_book. cbv zeta. by rewrite Hfail.
Qed.
End Failures.

Lemma store_failure_is_reported_as_500_witness :
  let req := UpdateBook "book-0" (BookUpdate.Build (Some "Dune II") None None) in
  calls (run (exec_down "connection refused") (handle starlette_str req "alice") ())
  = [(first_query req "alice", Failure "connection refused")]
  ∧ outcome (run (exec_down "connection refused") (handle starlette_str req "alice") ())
    = Raised (HTTPException HTTP_500_INTERNAL_SERVER_ERROR
                (starlette_str (Exception "connection refused"))).
Proof.
  intros req.
  apply (store_failure_is_reported_as_500 starlette_str (exec_down "connection refused")
           req "alice" () "connection refused").
  - exact I.
  - reflexivity.
Defined.

(** ** Requests on a table that does not fail *)

Lemma handle_on_table str req u s :
  let r := run exec_mem (handle str req u) s in
  match req with
  | GetBooks f =>
      final r = s
      ∧ if filter_ok f then ∃ l, outcome r = Returned (Books l)
        else outcome r = Raised (HTTPException HTTP_500_INTERNAL_SERVER_ERROR
                                   (str bad_filter))
  | _ =>
      (∃ a, outcome r = Returned a)
      ∨ (final r = s ∧ ∃ d, outcome r = Raised (HTTPException HTTP_400_BAD_REQUEST d)
                            ∨ outcome r = Raised (HTTPException HTTP_404_NOT_FOUND d))
  end.
Proof.
  intros r. subst r. rewrite handle_outcome.
  destruct (handle_calls_final str exec_mem req u s) as [_ ->].
  destruct req as [book|f|i|i upd].
  - rewrite run_create_book. destruct (status_in_valid _); cbv zeta.
    + rewrite exec_mem_insert. left. by eexists.
    + right. split; [done|]. eexists. by left.
  - rewrite run_get_books. destruct (filter_ok f) eqn:Hok; cbv zeta; [|done].
    rewrite exec_mem_list_reads by done. split; [done|]. cbn.
    destruct (exec_mem (list_query f u) s) as [s1 [l|m]] eqn:Hex; cbn; [by eexists|].
    exfalso. destruct (truthy_opt_str f) eqn:Hf.
    + destruct f as [st|]; [|done]. cbn in Hf. apply bool_decide_eq_true_1 in Hf.
      by rewrite exec_mem_list_status in Hex.
    + by rewrite exec_mem_list_all in Hex.
  - rewrite run_delete_book, exec_mem_lookup. cbv zeta. cbn [fst snd].
    destruct (filter (owned_by i u) (rows s)) as [|b d].
    + right. split; [done|]. eexists. by right.
    + rewrite exec_mem_delete. left. by eexists.
  - rewrite run_update_book, exec_mem_lookup. cbv zeta. cbn [fst snd].
    destruct (filter (owned_by i u) (rows s)) as [|b d] eqn:Hfound.
    + right. split; [done|]. eexists. by right.
    + destruct (negb (status_ok upd)); [right; split; [done|]; eexists; by left|].
      destruct (negb (truthy_dict _)); [right; split; [done|]; eexists; by left|].
      rewrite exec_mem_update, Hfound. left. by eexists.
Qed.

(** X12: on the table, served one at a time, a request is all or nothing:
    when the route ends in an error the table is exactly what it was before
    the request. *)
Theorem failed_request_leaves_table_unchanged
    (str : exn → string) (req : Request) (u : string) (s : Store) (e : exn) :
  outcome (run exec_mem (handle str req u) s) = Raised e →
  final (run exec_mem (handle str req u) s) = s.
Proof.
  intros He. pose proof (handle_on_table str req u s) as H. cbv zeta in H.
  destruct req as [book|f|i|i upd].
  2: by destruct H as [? _].
  all: destruct H as [[a Ha]|[? _]]; [by rewrite Ha in He|done].
Qed.

Lemma failed_request_leaves_table_unchanged_witness :
  final (run exec_mem
           (handle starlette_str
              (UpdateBook "book-0" (BookUpdate.Build (Some "Dune II") None (Some "finished")))
              "alice")
           sample_store)
  = sample_store.
Proof.
  apply (failed_request_leaves_table_unchanged starlette_str
           (UpdateBook "book-0" (BookUpdate.Build (Some "Dune II") None (Some "finished")))
           "alice" sample_store bad_status).
  by vm_compute.
Defined.

(** X13: on the table, served one at a time, the only request that is
    answered with a server error is a list request whose filter is
    non-empty and outside the enumeration.  Create, update and delete answer
    200, 400 or 404 there; the 500 branches after their store calls need a
    store that fails or a concurrent change. *)
Theorem server_error_on_table_only_for_bad_filter
    (str : exn → string) (req : Request) (u : string) (s : Store) :
  is_server_error (response_status (outcome (run exec_mem (handle str req u) s))) = true
  ↔ ∃ f, req = GetBooks (Some f) ∧ f ≠ "" ∧ f ∉ valid_statuses.
Proof.
  pose proof (handle_on_table str req u s) as H. cbv zeta in H.
  destruct req as [book|f|i|i upd].
  2: { destruct H as [_ H]. destruct (filter_ok f) eqn:Hok.
       - destruct H as [l ->]. cbn. split; [done|].
         intros (f' & [= ->] & Hne & Hbad). unfold filter_ok, truthy_opt_str in Hok.
         by rewrite (bool_decide_eq_true_2 _ Hne), status_in_valid_false in Hok.
       - rewrite H. cbn. split; [intros _|done].
         destruct f as [st|]; [|done]. exists st. split; [done|].
         unfold filter_ok, truthy_opt_str, status_in_valid in Hok.
         apply orb_false_iff in Hok as [Hne Hbad].
         apply negb_false_iff, bool_decide_eq_true_1 in Hne.
         by apply bool_decide_eq_false_1 in Hbad. }
  all: destruct H as [[a ->]|[_ [d [-> | ->]]]]; cbn;
    (split; [done|by intros (f' & ? & _)]).
Qed.

(** ** Create, update, list *)

Lemma reachable_ids_issued str s : reachable str s → ids_issued s ∧ unique_ids s.
Proof.
  revert s. apply reachable_steps.
  - split; [constructor|]. unfold unique_ids. cbn. constructor.
  - by intros d s.
  - apply store_step_ids.
Qed.

Lemma created_row_is_the_only_match book u s :
  ids_issued s →
  filter (owned_by (fresh_id (next_id s)) u) (rows s ++ [created_row book u s])%list
  = [created_row book u s].
Proof.
  intros Hiss. rewrite filter_app, filter_cons, decide_True by done.
  rewrite filter_nil, (filter_none (owned_by _ u) (rows s)); [done|].
  intros r Hr [Hid _]. eapply Forall_forall in Hiss as (k & Hk & Hrid); [|exact Hr].
  rewrite Hrid in Hid. apply fresh_id_inj in Hid. lia.
Qed.

(** X14: in any reachable table, a book that was just created can be
    retitled by its owner, and the round trip reads back what was written:
    the update of the created id with a new title returns the record with
    the new title and with the author, status, id, owner and creation time
    of the created one, and the owner's list then holds that record. *)
Theorem create_update_list_round_trip
    (str : exn → string) (book : BookCreate.t) (u t : string) (s : Store) :
  reachable str s →
  BookCreate.status book ∈ valid_statuses →
  let created := created_row book u s in
  let s1 := final (run exec_mem (create_book str book u) s) in
  let retitle := update_book str (BookResponse.id created)
                   (BookUpdate.Build (Some t) None None) u in
  let retitled :=
    {| BookResponse.id := BookResponse.id created;
       BookResponse.title := t;
       BookResponse.author := BookCreate.author book;
       BookResponse.status := BookCreate.status book;
       BookResponse.created_at := BookResponse.created_at created;
       BookResponse.user_id := u |} in
  outcome (run exec_mem (create_book str book u) s) = Returned created
  ∧ outcome (run exec_mem retitle s1) = Returned retitled
  ∧ ∃ l, outcome (run exec_mem (get_books str None u) (final (run exec_mem retitle s1)))
         = Returned l
         ∧ retitled ∈ l.
Proof.
  intros Hs Hst created s1 retitle retitled.
  destruct (reachable_ids_issued str s Hs) as [Hiss _].
  subst s1 retitle. rewrite (create_book_on_table str book u s Hst). cbn [outcome final].
  split; [done|].
  set (s1 := {| rows := rows s ++ [created]; next_id := S (next_id s); now := now s |}).
  assert (filter (owned_by (BookResponse.id created) u) (rows s1) = [created]) as Hfound
    by apply (created_row_is_the_only_match book u s Hiss).
  assert (update_data_of (BookUpdate.Build (Some t) None None) ≠ ∅) as Hne.
  { apply (bool_decide_unpack _). by vm_compute. }
  pose proof (update_book_succeeds str (BookResponse.id created)
                (BookUpdate.Build (Some t) None None) u s1 created [] Hfound eq_refl Hne)
    as Hupd.
  change (updated_row (BookUpdate.Build (Some t) None None) created) with retitled in Hupd.
  split; [exact Hupd|].
  destruct (update_book_success str _ _ u s1 retitled Hupd) as [Hrun _].
  change {| rows := rows s ++ [created_row book u s];
            next_id := S (next_id s); now := now s |} with s1.
  rewrite Hrun. cbn [final].
  destruct (listed_iff_wanted str None u
              (with_rows ((λ r, if decide (owned_by (BookResponse.id created) u r)
                                then updated_row (BookUpdate.Build (Some t) None None) r
                                else r) <$> rows s1) s1)
              retitled eq_refl) as (l & Hl & Hin).
  exists l. split; [done|]. apply Hin. split; [|done].
  cbn [rows with_rows]. apply list_elem_of_fmap. exists created. split.
  - by rewrite decide_True.
  - apply elem_of_app. right. apply list_elem_of_here.
Qed.

Lemma create_update_list_round_trip_witness :
  let book := BookCreate.Build "Dune" "Herbert" "reading" in
  let created := created_row book "alice" sample_store in
  let s1 := final (run exec_mem (create_book starlette_str book "alice") sample_store) in
  let retitle := update_book starlette_str (BookResponse.id created)
                   (BookUpdate.Build (Some "Dune Messiah") None None) "alice" in
  let retitled :=
    {| BookResponse.id := BookResponse.id created;
       BookResponse.title := "Dune Messiah";
       BookResponse.author := BookCreate.author book;
       BookResponse.status := BookCreate.status book;
       BookResponse.created_at := BookResponse.created_at created;
       BookResponse.user_id := "alice" |} in
  outcome (run exec_mem (create_book starlette_str book "alice") sample_store)
  = Returned created
  ∧ outcome (run exec_mem retitle s1) = Returned retitled
  ∧ ∃ l, outcome (run exec_mem (get_books starlette_str None "alice")
                    (final (run exec_mem retitle s1)))
         = Returned l
         ∧ retitled ∈ l.
Proof.
  intros book.
  apply (create_update_list_round_trip starlette_str book "alice" "Dune Messiah"
           sample_store).
  - exact sample_store_reachable.
  - apply (bool_decide_unpack _). by vm_compute.
Defined.

(** ** The three filters and the whole list *)

Lemma wanted_partition u (l : list Row) :
  Forall valid_status l →
  filter (wanted None u) l
  ≡ₚ (filter (wanted (Some "reading") u) l
      ++ filter (wanted (Some "completed") u) l
      ++ filter (wanted (Some "wishlist") u) l)%list.
Proof.
  induction 1 as [|r l Hr _ IH]; [done|].
  rewrite !filter_cons.
  destruct (decide (BookResponse.user_id r = u)) as [Hu|Hu].
  2: { rewrite !decide_False by (by intros [? _]). exact IH. }
  unfold valid_status, valid_statuses in Hr.
  rewrite (decide_True (P := wanted None u r)) by done.
  apply elem_of_cons in Hr as [Hst|Hr]; [|apply elem_of_cons in Hr as [Hst|Hr];
    [|apply elem_of_cons in Hr as [Hst|Hr]; [|by apply elem_of_nil in Hr]]].
  - rewrite (decide_True (P := wanted (Some "reading") u r)) by done.
    rewrite !decide_False by (intros [_ H]; by rewrite Hst in H).
    cbn. by rewrite IH.
  - rewrite (decide_True (P := wanted (Some "completed") u r)) by done.
    rewrite !decide_False by (intros [_ H]; by rewrite Hst in H).
    rewrite IH. apply Permutation_middle.
  - rewrite (decide_True (P := wanted (Some "wishlist") u r)) by done.
    rewrite !decide_False by (intros [_ H]; by rewrite Hst in H).
    rewrite IH, !app_assoc. apply Permutation_middle.
Qed.

(** X15: in any reachable table the three status filters split a user's
    list: what the unfiltered list request returns is, up to order, what
    the requests filtered by reading, by completed and by wishlist return
    together, with no book missing and none twice. *)
Theorem status_filters_partition_the_list
    (str : exn → string) (u : string) (s : Store) :
  reachable str s →
  ∃ l_all l_reading l_completed l_wishlist,
    outcome (run exec_mem (get_books str None u) s) = Returned l_all
    ∧ outcome (run exec_mem (get_books str (Some "reading") u) s) = Returned l_reading
    ∧ outcome (run exec_mem (get_books str (Some "completed") u) s) = Returned l_completed
    ∧ outcome (run exec_mem (get_books str (Some "wishlist") u) s) = Returned l_wishlist
    ∧ l_all ≡ₚ (l_reading ++ l_completed ++ l_wishlist)%list.
Proof.
  intros Hs.
  assert (Forall valid_status (rows s)) as Hvalid.
  { revert s Hs. apply reachable_steps; [constructor|by intros d s|].
    apply store_step_valid_status. }
  pose proof (get_books_accepted str None u s eq_refl) as H0.
  pose proof (get_books_accepted str (Some "reading") u s eq_refl) as H1.
  pose proof (get_books_accepted str (Some "completed") u s eq_refl) as H2.
  pose proof (get_books_accepted str (Some "wishlist") u s eq_refl) as H3.
  cbv zeta in H0, H1, H2, H3.
  do 4 eexists. rewrite H0, H1, H2, H3. cbn [outcome].
  repeat (split; [reflexivity|]).
  rewrite !merge_sort_Permutation. by apply wanted_partition.
Qed.

Lemma status_filters_partition_the_list_witness :
  ∃ l_all l_reading l_completed l_wishlist,
    outcome (run exec_mem (get_books starlette_str None "alice") sample_store)
    = Returned l_all
    ∧ outcome (run exec_mem (get_books starlette_str (Some "reading") "alice") sample_store)
      = Returned l_reading
    ∧ outcome (run exec_mem (get_books starlette_str (Some "completed") "alice") sample_store)
      = Returned l_completed
    ∧ outcome (run exec_mem (get_books starlette_str (Some "wishlist") "alice") sample_store)
      = Returned l_wishlist
    ∧ l_all ≡ₚ (l_reading ++ l_completed ++ l_wishlist)%list.
Proof.
  apply (status_filters_partition_the_list starlette_str "alice" sample_store).
  exact sample_store_reachable.
Defined.

(** ** The routes on sample tokens *)

(** The routes under the sample decoder: a token without [sub] is turned
    away before the store is touched, and the token of alice deletes her
    book as [delete_book] run for "alice" does. *)
Lemma endpoint_on_sample_tokens :
  run exec_mem (endpoint sample_decode "secret" starlette_str "no-sub-token"
                  (DeleteBook "book-0")) sample_store
  = {| calls := []; final := sample_store; outcome := Raised invalid_token |}
  ∧ run exec_mem (endpoint sample_decode "secret" starlette_str "forged"
                    (DeleteBook "book-0")) sample_store
    = {| calls := []; final := sample_store; outcome := Raised invalid_token |}
  ∧ run exec_mem (endpoint sample_decode "secret" starlette_str "alice-token"
                    (DeleteBook "book-0")) sample_store
    = run exec_mem (handle starlette_str (DeleteBook "book-0") "alice") sample_store.
Proof. repeat split; by vm_compute. Qed.
